(** * pydantic-partial: the derivation of partial models

    A shallow embedding of [pydantic_partial/partial.py].  The module holds one
    algorithm, [create_partial_model], memoised by [functools.lru_cache], and
    the class method [PartialModelMixin.as_partial] that forwards to it.

    Class objects are kept in a heap and named by their address, so that "the
    identical type object" is equality of addresses.  The derivation threads
    the heap and the memoisation table through every call; the mutual
    recursion between [create_partial_model] and [as_partial] is cut by a
    fuel argument that bounds the depth of nested calls. *)

From Stdlib Require Import String Ascii List Bool Arith ZArith Lia.
Import ListNotations.
Open Scope string_scope.
Open Scope list_scope.

(** ** Strings *)

(** [field.startswith(p)] *)
Definition startswith (p field : string) : bool := String.prefix p field.

(** [field.removeprefix(p)] *)
Definition removeprefix (p field : string) : string :=
  if String.prefix p field
  then substring (String.length p) (String.length field - String.length p) field
  else field.

(** [x in xs] for a list of strings *)
Definition mem (x : string) (xs : list string) : bool :=
  existsb (String.eqb x) xs.

Fixpoint list_eqb (xs ys : list string) : bool :=
  match xs, ys with
  | [], [] => true
  | x :: xs', y :: ys' => String.eqb x y && list_eqb xs' ys'
  | _, _ => false
  end.

(** A name without a dot: what a field declared in a class body looks like. *)
Fixpoint dotfree (s : string) : bool :=
  match s with
  | EmptyString => true
  | String c r => negb (Ascii.eqb c ".") && dotfree r
  end.

(** ** Annotations *)

(** The address of a class object. *)
Definition cls := nat.

(** What [typing.get_origin] returns for a parametrized annotation.
    [List[X]] and [list[X]] both have origin [list], and so on for
    [Tuple] and [Dict]. *)
Inductive origin : Type :=
| OUnion
| OList
| OTuple
| ODict
| OOther (name : string).

#[warnings="-register-all"]
Inductive ty : Type :=
| TNone
| TPlain (name : string)
| TModel (c : cls)
| TGeneric (o : origin) (args : list ty).

Definition origin_eqb (a b : origin) : bool :=
  match a, b with
  | OUnion, OUnion | OList, OList | OTuple, OTuple | ODict, ODict => true
  | OOther x, OOther y => String.eqb x y
  | _, _ => false
  end.

Fixpoint ty_eqb (a b : ty) : bool :=
  match a, b with
  | TNone, TNone => true
  | TPlain x, TPlain y => String.eqb x y
  | TModel c, TModel d => Nat.eqb c d
  | TGeneric o xs, TGeneric p ys =>
      origin_eqb o p &&
      (fix all2 (xs ys : list ty) : bool :=
         match xs, ys with
         | [], [] => true
         | x :: xs', y :: ys' => ty_eqb x y && all2 xs' ys'
         | _, _ => false
         end) xs ys
  | _, _ => false
  end.

Definition get_origin (t : ty) : option origin :=
  match t with
  | TGeneric o _ => Some o
  | _ => None
  end.

Definition get_args (t : ty) : list ty :=
  match t with
  | TGeneric _ args => args
  | _ => []
  end.

(** [Union[...]] flattens nested unions, drops repeated members and
    collapses to its member when one is left. *)
Definition flatten_union (args : list ty) : list ty :=
  flat_map (fun a => match a with
                     | TGeneric OUnion xs => xs
                     | _ => [a]
                     end) args.

Fixpoint dedupe (xs : list ty) : list ty :=
  match xs with
  | [] => []
  | x :: r => x :: filter (fun y => negb (ty_eqb x y)) (dedupe r)
  end.

(** [origin[tuple(args)]] *)
Definition subscript (o : origin) (args : list ty) : ty :=
  match o with
  | OUnion =>
      match dedupe (flatten_union args) with
      | [x] => x
      | l => TGeneric OUnion l
      end
  | _ => TGeneric o args
  end.

(** [Optional[t]], that is [Union[t, None]] *)
Definition Optional_ (t : ty) : ty := subscript OUnion [t; TNone].

Definition is_none (t : ty) : bool :=
  match t with TNone => true | _ => false end.

(** The annotation admits [None] as a value. *)
Definition accepts_none (t : ty) : bool :=
  match t with
  | TNone => true
  | TGeneric OUnion xs => existsb is_none xs
  | _ => false
  end.

(** [field_annotation_origin in (Union, list, Tuple, tuple, List, dict, Dict)] *)
Definition rebuilt_origin (o : option origin) : bool :=
  match o with
  | Some OUnion | Some OList | Some OTuple | Some ODict => true
  | _ => false
  end.

(** ** Field descriptors *)

Inductive value : Type :=
| Undefined
| PyNone
| PyBool (b : bool)
| PyInt (z : Z)
| PyStr (s : string)
| PyCallable (name : string).

Record field_info : Type := mkField {
  fi_annotation : option ty;
  fi_default : value;
  fi_default_factory : value;
  fi_extra : list (string * value)
}.

Definition value_eqb (a b : value) : bool :=
  match a, b with
  | Undefined, Undefined | PyNone, PyNone => true
  | PyBool x, PyBool y => Bool.eqb x y
  | PyInt x, PyInt y => Z.eqb x y
  | PyStr x, PyStr y => String.eqb x y
  | PyCallable x, PyCallable y => String.eqb x y
  | _, _ => false
  end.

(** Modelled from the spec: [PydanticCompat.get_model_field_info_annotation]
    of the module [_compat], which is not among the sources.  It reads the
    annotation of a descriptor; [None] is an annotation that cannot be
    resolved. *)
Definition get_model_field_info_annotation (f : field_info) : option ty :=
  fi_annotation f.

(** Modelled from the spec: [PydanticCompat.is_model_field_info_required] of
    the module [_compat].  The required flag of a descriptor: a field is
    required when it has neither a default nor a default factory. *)
Definition is_model_field_info_required (f : field_info) : bool :=
  value_eqb (fi_default f) Undefined && value_eqb (fi_default_factory f) PyNone.

Fixpoint extra_set (k : string) (v : value) (e : list (string * value))
  : list (string * value) :=
  match e with
  | [] => [(k, v)]
  | (k', v') :: r =>
      if String.eqb k k' then (k, v) :: r else (k', v') :: extra_set k v r
  end.

Fixpoint extra_get (k : string) (e : list (string * value)) : option value :=
  match e with
  | [] => None
  | (k', v) :: r => if String.eqb k k' then Some v else extra_get k r
  end.

Definition set_attribute (f : field_info) (kv : string * value) : field_info :=
  let (k, v) := kv in
  if String.eqb k "default" then
    mkField (fi_annotation f) v (fi_default_factory f) (fi_extra f)
  else if String.eqb k "default_factory" then
    mkField (fi_annotation f) (fi_default f) v (fi_extra f)
  else
    mkField (fi_annotation f) (fi_default f) (fi_default_factory f)
            (extra_set k v (fi_extra f)).

(** Modelled from the spec: [PydanticCompat.copy_model_field_info] of the
    module [_compat].  It copies a descriptor with the attributes given as
    keyword arguments overridden: the default, the default factory, and any
    other keyword as constraint metadata of the descriptor. *)
Definition copy_model_field_info (f : field_info) (kwargs : list (string * value))
  : field_info :=
  fold_left set_attribute kwargs f.

(** ** Class objects, the heap and the memoisation table *)

Record class_obj : Type := mkClass {
  cls_name : string;
  cls_base : option cls;
  (** [issubclass(cls, PartialModelMixin)] *)
  cls_partial : bool;
  (** Modelled from the spec: [PydanticCompat.model_fields] of the module
      [_compat]: the ordered mapping from field name to descriptor. *)
  model_fields : list (string * field_info)
}.

(** The key [lru_cache] builds from a call: the positional arguments and the
    keyword arguments as they were passed.  A call that leaves [recursive]
    out and a call that passes [recursive=False] have different keys. *)
Definition key : Type := (cls * list string * option bool)%type.

Definition key_eqb (a b : key) : bool :=
  let '(c, fs, r) := a in
  let '(d, gs, q) := b in
  Nat.eqb c d && list_eqb fs gs &&
  match r, q with
  | None, None => true
  | Some x, Some y => Bool.eqb x y
  | _, _ => false
  end.

Record state : Type := mkState {
  heap : list class_obj;
  cache : list (key * cls)
}.

Fixpoint cache_get (k : key) (c : list (key * cls)) : option cls :=
  match c with
  | [] => None
  | (k', v) :: r => if key_eqb k k' then Some v else cache_get k r
  end.

Fixpoint cache_set (k : key) (v : cls) (c : list (key * cls)) : list (key * cls) :=
  match c with
  | [] => [(k, v)]
  | (k', v') :: r =>
      if key_eqb k k' then (k, v) :: r else (k', v') :: cache_set k v r
  end.

Definition get_class (s : state) (c : cls) : option class_obj :=
  nth_error (heap s) c.

(** [isinstance(t, type) and issubclass(t, PartialModelMixin)] for the class
    at address [c] *)
Definition is_partial_model (s : state) (c : cls) : bool :=
  match get_class s c with
  | Some o => cls_partial o
  | None => false
  end.

(** ** Computations

    A computation reads and writes the state and may give no result: the
    nesting of calls went deeper than the fuel, or a class address is not in
    the heap. *)

Definition M (A : Type) : Type := state -> option (A * state).

Definition ret {A : Type} (a : A) : M A := fun s => Some (a, s).

Definition bind {A B : Type} (m : M A) (f : A -> M B) : M B :=
  fun s => match m s with
           | Some (a, s') => f a s'
           | None => None
           end.

Notation "x <- m ;; k" := (bind m (fun x => k))
  (at level 61, m at next level, right associativity).

Fixpoint mapM {A B : Type} (f : A -> M B) (xs : list A) : M (list B) :=
  match xs with
  | [] => ret []
  | x :: r => y <- f x ;; ys <- mapM f r ;; ret (y :: ys)
  end.

Fixpoint foldM {A B : Type} (f : B -> A -> M B) (xs : list A) (b : B) : M B :=
  match xs with
  | [] => ret b
  | x :: r => b' <- f b x ;; foldM f r b'
  end.

(** ** The dictionary of overrides *)

Definition override : Type := (ty * field_info)%type.
Definition dict : Type := list (string * override).

Fixpoint dict_set (k : string) (v : override) (d : dict) : dict :=
  match d with
  | [] => [(k, v)]
  | (k', v') :: r =>
      if String.eqb k k' then (k, v) :: r else (k', v') :: dict_set k v r
  end.

Fixpoint dict_get (k : string) (d : dict) : option override :=
  match d with
  | [] => None
  | (k', v) :: r => if String.eqb k k' then Some v else dict_get k r
  end.

(** ** Model synthesis *)

Definition with_annotation (f : field_info) (a : ty) : field_info :=
  mkField (Some a) (fi_default f) (fi_default_factory f) (fi_extra f).

Definition apply_override (d : dict) (f : string * field_info)
  : string * field_info :=
  match dict_get (fst f) d with
  | Some (a, fi) => (fst f, with_annotation fi a)
  | None => f
  end.

(** [pydantic.create_model(name, __base__=base, **overrides)]: a new class
    that extends [base]; a field of [base] named by an override takes the
    annotation and the descriptor of the override in its place, a name new
    to [base] is added after the inherited fields. *)
Definition create_model (name : string) (base : cls) (overrides : dict) : M cls :=
  fun s =>
    match get_class s base with
    | None => None
    | Some b =>
        let inherited := map (apply_override overrides) (model_fields b) in
        let added :=
          map (fun kv => (fst kv, with_annotation (snd (snd kv)) (fst (snd kv))))
              (filter (fun kv => negb (mem (fst kv) (map fst (model_fields b))))
                      overrides) in
        let c := mkClass name (Some base) (cls_partial b) (inherited ++ added) in
        Some (List.length (heap s), mkState (heap s ++ [c]) (cache s))
    end.

(** ** The derivation *)

Section Derivation.

(** The class method [as_partial] of a nested model class, called with the
    children fields and the same [recursive] flag. *)
Variable as_partial : cls -> list string -> bool -> M cls.

Variable fields_ : list string.
Variable recursive : bool.

Definition children_fields (field_name_ : string) : list string :=
  let field_prefix := (field_name_ ++ ".")%string in
  let children :=
    map (removeprefix field_prefix) (filter (startswith field_prefix) fields_) in
  if list_eqb children ["*"] then [] else children.

(** Convert one type to being partial, if possible. *)
Definition _partial_annotation_arg (field_name_ : string) (field_annotation : ty)
  : M ty :=
  fun s =>
    match field_annotation with
    | TModel c =>
        match get_class s c with
        | None => None
        | Some o =>
            if cls_partial o then
              (c' <- as_partial c (children_fields field_name_) recursive ;;
               ret (TModel c')) s
            else ret field_annotation s
        end
    | _ => ret field_annotation s
    end.

(** Change type for sub models. *)
Definition rewrite_annotation (field_name : string) (field_annotation : ty)
  : M ty :=
  let field_annotation_origin := get_origin field_annotation in
  if rebuilt_origin field_annotation_origin then
    match field_annotation_origin with
    | Some o =>
        args <- mapM (_partial_annotation_arg field_name)
                     (get_args field_annotation) ;;
        ret (subscript o args)
    | None => ret field_annotation
    end
  else _partial_annotation_arg field_name field_annotation.

Definition sub_fields_requested (field_name : string) : bool :=
  existsb (startswith (field_name ++ ".")%string) fields_.

Definition optional_kwargs : list (string * value) :=
  [("default", PyNone); ("defaul_factory", PyNone); ("nullable", PyBool true)].

(** One turn of the loop over [model_fields.items()]. *)
Definition field_step (optional_fields : dict) (item : string * field_info)
  : M dict :=
  let (field_name, field_info) := item in
  match get_model_field_info_annotation field_info with
  | None => ret optional_fields
  | Some field_annotation =>
      let sub := sub_fields_requested field_name in
      if negb (mem field_name fields_) && negb sub then ret optional_fields
      else
        field_annotation' <-
          (if recursive || sub
           then rewrite_annotation field_name field_annotation
           else ret field_annotation) ;;
        if mem field_name fields_ then
          if is_model_field_info_required field_info then
            ret (dict_set field_name
                   (Optional_ field_annotation',
                    copy_model_field_info field_info optional_kwargs)
                   optional_fields)
          else ret optional_fields
        else if recursive || sub then
          ret (dict_set field_name
                 (field_annotation', copy_model_field_info field_info [])
                 optional_fields)
        else ret optional_fields
  end.

Definition compute_optional_fields (fields : list (string * field_info)) : M dict :=
  foldM field_step fields [].

End Derivation.

(** By default make all fields optional, but use passed fields when possible. *)
Definition effective_fields (fields : list string) (b : class_obj) : list string :=
  match fields with
  | [] => map fst (model_fields b)
  | _ => fields
  end.

(** The body of [create_partial_model], over the method it calls on nested
    model classes. *)
Definition create_partial_model_body
    (as_partial : cls -> list string -> bool -> M cls)
    (base_cls : cls) (fields : list string) (recursive : bool) : M cls :=
  fun s =>
    match get_class s base_cls with
    | None => None
    | Some b =>
        (optional_fields <-
           compute_optional_fields as_partial (effective_fields fields b)
             recursive (model_fields b) ;;
         match optional_fields with
         | [] => ret base_cls
         | _ => create_model (cls_name b ++ "Partial")%string base_cls optional_fields
         end) s
    end.

(** [recursive: bool = False] *)
Definition recursive_of (kw : option bool) : bool :=
  match kw with
  | Some r => r
  | None => false
  end.

(** [create_partial_model] under [functools.lru_cache(maxsize=None)]: a hit
    returns the stored class, a miss runs the body and stores its result.
    [kw] is the keyword argument [recursive] as the caller passed it. *)
Fixpoint create_partial_model (fuel : nat) (base_cls : cls)
    (fields : list string) (kw : option bool) : M cls :=
  fun s =>
    match cache_get (base_cls, fields, kw) (cache s) with
    | Some c => Some (c, s)
    | None =>
        match fuel with
        | O => None
        | S fuel' =>
            match create_partial_model_body
                    (fun c fs r => create_partial_model fuel' c fs (Some r))
                    base_cls fields (recursive_of kw) s with
            | Some (c, s') =>
                Some (c, mkState (heap s')
                                 (cache_set (base_cls, fields, kw) c (cache s')))
            | None => None
            end
        end
    end.

(** [PartialModelMixin.as_partial] *)
Definition as_partial (fuel : nat) (c : cls) (fields : list string)
    (recursive : bool) : M cls :=
  create_partial_model fuel c fields (Some recursive).

(** ** Observations on classes and states *)

(** [model_fields[name]] *)
Fixpoint lookup_field (name : string) (fs : list (string * field_info))
  : option field_info :=
  match fs with
  | [] => None
  | (k, f) :: r => if String.eqb name k then Some f else lookup_field name r
  end.

(** The descriptor of field [name] of the class at address [c]. *)
Definition field_of (s : state) (c : cls) (name : string) : option field_info :=
  match get_class s c with
  | Some o => lookup_field name (model_fields o)
  | None => None
  end.

(** Field names are the keys of a mapping and contain no dot. *)
Fixpoint nodupb (xs : list string) : bool :=
  match xs with
  | [] => true
  | x :: r => negb (mem x r) && nodupb r
  end.

Definition wf_class (o : class_obj) : bool :=
  nodupb (map fst (model_fields o)) && forallb dotfree (map fst (model_fields o)).

(** The heap only grows, and a class object is never changed. *)
Definition heap_le (s s' : state) : Prop :=
  exists t, heap s' = heap s ++ t.

(** An entry of the memoisation table stays. *)
Definition cache_le (s s' : state) : Prop :=
  forall k c, cache_get k (cache s) = Some c -> cache_get k (cache s') = Some c.

Definition ext (s s' : state) : Prop := heap_le s s' /\ cache_le s s'.

(** The model classes that the rewriting of an annotation looks at. *)
Definition targets (a : ty) : list cls :=
  match a with
  | TModel c => [c]
  | TGeneric o args =>
      if rebuilt_origin (Some o)
      then flat_map (fun x => match x with TModel c => [c] | _ => [] end) args
      else []
  | _ => []
  end.

(** Nested model classes are at most [n] levels deep below [c]. *)
Fixpoint bounded (h : list class_obj) (n : nat) (c : cls) : bool :=
  match n with
  | O => false
  | S m =>
      match nth_error h c with
      | None => false
      | Some o =>
          forallb
            (fun item =>
               match fi_annotation (snd item) with
               | None => true
               | Some a =>
                   forallb
                     (fun d =>
                        match nth_error h d with
                        | None => false
                        | Some od => negb (cls_partial od) || bounded h m d
                        end)
                     (targets a)
               end)
            (model_fields o)
      end
  end.

(** The states of a process: it starts with the classes the program declares
    and an empty table, and moves by calls of [create_partial_model]. *)
Inductive reachable : state -> Prop :=
| reach_init : forall h, reachable (mkState h [])
| reach_call : forall s fuel base_cls fields kw c s',
    reachable s ->
    create_partial_model fuel base_cls fields kw s = Some (c, s') ->
    reachable s'.

(** [c] is what the body of [create_partial_model] produced for the call
    [(base_cls, fields, kw)] at some earlier state of the process. *)
Definition derived_by (base_cls : cls) (fields : list string) (kw : option bool)
    (c : cls) (s : state) : Prop :=
  exists fuel s0 s1,
    reachable s0 /\
    create_partial_model_body
      (fun c fs r => create_partial_model fuel c fs (Some r))
      base_cls fields (recursive_of kw) s0 = Some (c, s1) /\
    heap_le s0 s1 /\ heap_le s1 s.

Definition sound (s : state) : Prop :=
  forall base_cls fields kw c,
    cache_get (base_cls, fields, kw) (cache s) = Some c ->
    derived_by base_cls fields kw c s.

(** The method that a call with fuel [S fuel] finds on nested classes. *)
Definition nested (fuel : nat) : cls -> list string -> bool -> M cls :=
  fun c fs r => create_partial_model fuel c fs (Some r).

(** A turn of the loop on this field calls no nested derivation: the field
    has no annotation, or no selector goes below it and either the call is
    not recursive or the field is not selected. *)
Definition quiet (fields_ : list string) (recursive : bool)
    (item : string * field_info) : bool :=
  match fi_annotation (snd item) with
  | None => true
  | Some _ =>
      negb (sub_fields_requested fields_ (fst item)) &&
      (negb recursive || negb (mem (fst item) fields_))
  end.

(** The override of a quiet field: a selected required field becomes
    optional around its own annotation, any other field has none. *)
Definition quiet_override (fields_ : list string) (n : string) (fi : field_info)
  : option override :=
  match fi_annotation fi with
  | Some a =>
      if mem n fields_ && is_model_field_info_required fi
      then Some (Optional_ a, copy_model_field_info fi optional_kwargs)
      else None
  | None => None
  end.

(** Every field with an annotation is optional. *)
Definition all_optional (fs : list (string * field_info)) : bool :=
  forallb (fun item => match fi_annotation (snd item) with
                       | None => true
                       | Some _ => negb (is_model_field_info_required (snd item))
                       end) fs.

(** The selector [sel] names no field of the class and no path below one. *)
Definition unmatched (names : list string) (sel : string) : bool :=
  forallb (fun n => negb (String.eqb n sel) &&
                    negb (startswith (n ++ ".")%string sel)) names.

(** The relation that the nested calls keep in a state of the process. *)
Definition proceeds (a z : state) : Prop :=
  (reachable a -> reachable z) /\ ext a z.

(** A state that the process reaches from [s] by further calls. *)
Inductive later : state -> state -> Prop :=
| later_refl : forall s, later s s
| later_call : forall s s1 fuel base_cls fields kw c s2,
    later s s1 ->
    create_partial_model fuel base_cls fields kw s1 = Some (c, s2) ->
    later s s2.

(** A target of the rewriting is in the heap and, when it is derivable, its
    own nesting is at most [m] levels deep. *)
Definition ok_target (h : list class_obj) (m : nat) (d : cls) : bool :=
  match nth_error h d with
  | None => false
  | Some od => negb (cls_partial od) || bounded h m d
  end.

Definition ok_field (h : list class_obj) (m : nat) (item : string * field_info)
  : bool :=
  match fi_annotation (snd item) with
  | None => true
  | Some a => forallb (ok_target h m) (targets a)
  end.

(** The heap of [s] extends [h]. *)
Definition over (h : list class_obj) (s : state) : Prop :=
  exists t, heap s = h ++ t.

(** ** Sample classes

    The scenario of the specification and a model with a nested model. *)

Definition required_field (a : ty) : field_info :=
  mkField (Some a) Undefined PyNone [].

Definition default_field (a : ty) (v : value) : field_info :=
  mkField (Some a) v PyNone [].

(** [class Something: name: str; age: int], at address 0 *)
Definition ex_Something : class_obj :=
  mkClass "Something" None true
    [("name", required_field (TPlain "str"));
     ("age", required_field (TPlain "int"))].

(** [class Child: x: int; y: str = "d"], at address 1 *)
Definition ex_Child : class_obj :=
  mkClass "Child" None true
    [("x", required_field (TPlain "int"));
     ("y", default_field (TPlain "str") (PyStr "d"))].

(** [class Parent: child: Child; n: int; o: Optional[Child] = None;
    s: Set[Child]], at address 2 *)
Definition ex_Parent : class_obj :=
  mkClass "Parent" None true
    [("child", required_field (TModel 1));
     ("n", required_field (TPlain "int"));
     ("o", default_field (TGeneric OUnion [TModel 1; TNone]) PyNone);
     ("s", required_field (TGeneric (OOther "set") [TModel 1]))].

(** [class Mixed: a: str; b: int = 5; c] where the annotation of [c]
    cannot be resolved, at address 3 *)
Definition ex_Mixed : class_obj :=
  mkClass "Mixed" None true
    [("a", required_field (TPlain "str"));
     ("b", default_field (TPlain "int") (PyInt 5));
     ("c", mkField None Undefined PyNone [])].

Definition ex_state : state :=
  mkState [ex_Something; ex_Child; ex_Parent; ex_Mixed] [].

(** [class Node: value: int; next: Optional[Node] = None], alone in a heap
    at address 0 *)
Definition ex_Node : class_obj :=
  mkClass "Node" None true
    [("value", required_field (TPlain "int"));
     ("next", default_field (TGeneric OUnion [TModel 0; TNone]) PyNone)].

Definition ex_chain : state := mkState [ex_Node] [].

(** An argument of an annotation that is not a class object: the rewriting
    of the arguments of a container looks at classes only. *)
Definition not_a_class (a : ty) : bool :=
  match a with
  | TModel _ => false
  | _ => true
  end.

(** How the rewriting relates an argument of a container to what it puts in
    its place: a class is kept or replaced by the class that the nested
    derivation returned for it, anything else is kept. *)
Definition arg_rewritten (cb : cls -> list string -> bool -> M cls)
    (fields_ : list string) (recursive : bool) (n : string) (x x' : ty) : Prop :=
  match x with
  | TModel c =>
      x' = x \/
      exists z c' z',
        cb c (children_fields fields_ n) recursive z = Some (c', z') /\
        x' = TModel c'
  | _ => x' = x
  end.

(** * Properties *)

(** ** Equality tests *)

Lemma list_eqb_eq : forall xs ys, list_eqb xs ys = true <-> xs = ys.
Proof.
  induction xs as [|x xs IH]; destruct ys as [|y ys]; simpl; split;
    try congruence; intro H.
  - apply andb_true_iff in H. destruct H as [H1 H2].
    apply String.eqb_eq in H1. apply IH in H2. congruence.
  - inversion H; subst. rewrite String.eqb_refl. simpl. now apply IH.
Qed.

Lemma key_eqb_eq : forall a b : key, key_eqb a b = true <-> a = b.
Proof.
  intros [[c fs] r] [[d gs] q]. unfold key_eqb. split.
  - intro H. apply andb_true_iff in H. destruct H as [H H3].
    apply andb_true_iff in H. destruct H as [H1 H2].
    apply Nat.eqb_eq in H1. apply list_eqb_eq in H2. subst.
    destruct r as [[|]|], q as [[|]|]; simpl in H3; congruence.
  - intro H. inversion H; subst.
    rewrite Nat.eqb_refl. simpl.
    assert (E : list_eqb gs gs = true) by now apply list_eqb_eq.
    rewrite E. simpl. destruct q as [[|]|]; reflexivity.
Qed.

Lemma key_eqb_refl : forall k, key_eqb k k = true.
Proof. intro k. now apply key_eqb_eq. Qed.

Lemma key_eqb_neq : forall a b : key, a <> b -> key_eqb a b = false.
Proof.
  intros a b H. destruct (key_eqb a b) eqn:E; [|reflexivity].
  apply key_eqb_eq in E. contradiction.
Qed.

(** ** The memoisation table and the dictionaries *)

Lemma cache_get_set_same : forall k v c, cache_get k (cache_set k v c) = Some v.
Proof.
  intros k v c. induction c as [|[k' v'] r IH]; simpl.
  - now rewrite key_eqb_refl.
  - destruct (key_eqb k k') eqn:E; simpl.
    + now rewrite key_eqb_refl.
    + now rewrite E.
Qed.

Lemma cache_get_set_other : forall k k' v c,
  k' <> k -> cache_get k' (cache_set k v c) = cache_get k' c.
Proof.
  intros k k' v c Hne. induction c as [|[k0 v0] r IH]; simpl.
  - now rewrite (key_eqb_neq _ _ Hne).
  - destruct (key_eqb k k0) eqn:E; simpl.
    + apply key_eqb_eq in E. subst k0.
      now rewrite (key_eqb_neq _ _ Hne).
    + destruct (key_eqb k' k0); [reflexivity | exact IH].
Qed.

Lemma dict_get_set_same : forall k v d, dict_get k (dict_set k v d) = Some v.
Proof.
  intros k v d. induction d as [|[k' v'] r IH]; simpl.
  - now rewrite String.eqb_refl.
  - destruct (String.eqb k k') eqn:E; simpl.
    + now rewrite String.eqb_refl.
    + now rewrite E.
Qed.

Lemma dict_get_set_other : forall k k' v d,
  k' <> k -> dict_get k' (dict_set k v d) = dict_get k' d.
Proof.
  intros k k' v d Hne. apply String.eqb_neq in Hne.
  induction d as [|[k0 v0] r IH]; simpl.
  - now rewrite Hne.
  - destruct (String.eqb k k0) eqn:E; simpl.
    + apply String.eqb_eq in E. subst k0. now rewrite Hne.
    + destruct (String.eqb k' k0); [reflexivity | exact IH].
Qed.

Lemma dict_set_not_nil : forall k v d, dict_set k v d <> [].
Proof.
  intros k v [|[k' v'] r]; simpl; [discriminate|].
  destruct (String.eqb k k'); discriminate.
Qed.

Lemma dict_get_in : forall k v d, In (k, v) d -> dict_get k d <> None.
Proof.
  intros k v d. induction d as [|[k' v'] r IH]; simpl; [tauto|].
  intros [H|H].
  - inversion H; subst. rewrite String.eqb_refl. discriminate.
  - destruct (String.eqb k k'); [discriminate | now apply IH].
Qed.

Lemma mem_In : forall x xs, mem x xs = true <-> In x xs.
Proof.
  intros x xs. unfold mem. rewrite existsb_exists. split.
  - intros [y [H1 H2]]. apply String.eqb_eq in H2. now subst.
  - intro H. exists x. split; [exact H | apply String.eqb_refl].
Qed.

Lemma nodupb_NoDup : forall xs, nodupb xs = true -> NoDup xs.
Proof.
  induction xs as [|x r IH]; simpl; intro H; constructor.
  - apply andb_true_iff in H. destruct H as [H _].
    intro HI. apply mem_In in HI. rewrite HI in H. discriminate.
  - apply andb_true_iff in H. now apply IH.
Qed.

(** ** Growth of the state *)

Lemma heap_le_refl : forall s, heap_le s s.
Proof. intro s. exists []. now rewrite app_nil_r. Qed.

Lemma heap_le_trans : forall a b c, heap_le a b -> heap_le b c -> heap_le a c.
Proof.
  intros a b c [t1 H1] [t2 H2]. exists (t1 ++ t2).
  rewrite H2, H1. now rewrite app_assoc.
Qed.

Lemma ext_refl : forall s, ext s s.
Proof. intro s. split; [apply heap_le_refl | intros k c H; exact H]. Qed.

Lemma ext_trans : forall a b c, ext a b -> ext b c -> ext a c.
Proof.
  intros a b c [H1 C1] [H2 C2]. split.
  - eapply heap_le_trans; eassumption.
  - intros k v H. apply C2, C1, H.
Qed.

Lemma heap_le_get_class : forall s s' c o,
  heap_le s s' -> get_class s c = Some o -> get_class s' c = Some o.
Proof.
  intros s s' c o [t H] G. unfold get_class in *. rewrite H.
  rewrite nth_error_app1; [exact G|].
  apply nth_error_Some. congruence.
Qed.

Lemma heap_le_field_of : forall s s' c n f,
  heap_le s s' -> field_of s c n = Some f -> field_of s' c n = Some f.
Proof.
  intros s s' c n f H F. unfold field_of in *.
  destruct (get_class s c) as [o|] eqn:G; [|discriminate].
  now rewrite (heap_le_get_class _ _ _ _ H G).
Qed.

(** ** What the loop preserves

    Any relation between states that is reflexive, transitive and kept by
    the nested calls is kept by every part of the body that runs before the
    new class is made. *)

Section Preserved.

Variable cb : cls -> list string -> bool -> M cls.
Variable fields_ : list string.
Variable recursive : bool.
Variable R : state -> state -> Prop.
Hypothesis R_refl : forall s, R s s.
Hypothesis R_trans : forall a b c, R a b -> R b c -> R a c.
Hypothesis R_cb : forall c fs r s c' s',
  cb c fs r s = Some (c', s') -> R s s'.

Lemma arg_preserved : forall n a s a' s',
  _partial_annotation_arg cb fields_ recursive n a s = Some (a', s') -> R s s'.
Proof.
  intros n a s a' s' H. unfold _partial_annotation_arg in H.
  destruct a; try (inversion H; subst; apply R_refl).
  destruct (get_class s c) as [o|]; [|discriminate].
  destruct (cls_partial o).
  - unfold bind, ret in H.
    destruct (cb c _ recursive s) as [[c' s1]|] eqn:E; [|discriminate].
    inversion H; subst. eapply R_cb; eassumption.
  - inversion H; subst. apply R_refl.
Qed.

Lemma mapM_preserved : forall n args s args' s',
  mapM (_partial_annotation_arg cb fields_ recursive n) args s = Some (args', s') ->
  R s s'.
Proof.
  intros n args. induction args as [|a r IH]; simpl; intros s args' s' H.
  - inversion H; subst. apply R_refl.
  - unfold bind, ret in H.
    destruct (_partial_annotation_arg cb fields_ recursive n a s)
      as [[a' s1]|] eqn:E1; [|discriminate].
    destruct (mapM _ r s1) as [[r' s2]|] eqn:E2; [|discriminate].
    inversion H; subst.
    eapply R_trans; [eapply arg_preserved; eassumption | eapply IH; eassumption].
Qed.

Lemma rewrite_preserved : forall n a s a' s',
  rewrite_annotation cb fields_ recursive n a s = Some (a', s') -> R s s'.
Proof.
  intros n a s a' s' H. unfold rewrite_annotation in H.
  destruct (rebuilt_origin (get_origin a)).
  - destruct (get_origin a).
    + unfold bind, ret in H.
      destruct (mapM _ (get_args a) s) as [[r' s2]|] eqn:E2; [|discriminate].
      inversion H; subst. eapply mapM_preserved; eassumption.
    + inversion H; subst. apply R_refl.
  - eapply arg_preserved; eassumption.
Qed.

(** What one turn of the loop does, by cases. *)
Lemma field_step_cases : forall d n fi s d' s',
  field_step cb fields_ recursive d (n, fi) s = Some (d', s') ->
  (d' = d /\ s' = s /\
     (fi_annotation fi = None \/
      (mem n fields_ = false /\ sub_fields_requested fields_ n = false)))
  \/
  (exists a a',
     fi_annotation fi = Some a /\
     (mem n fields_ = true \/ sub_fields_requested fields_ n = true) /\
     (if recursive || sub_fields_requested fields_ n
      then rewrite_annotation cb fields_ recursive n a s = Some (a', s')
      else a' = a /\ s' = s) /\
     d' = (if mem n fields_
           then if is_model_field_info_required fi
                then dict_set n (Optional_ a',
                                 copy_model_field_info fi optional_kwargs) d
                else d
           else dict_set n (a', copy_model_field_info fi []) d)).
Proof.
  intros d n fi s d' s' H. unfold field_step in H.
  unfold get_model_field_info_annotation in H.
  destruct (fi_annotation fi) as [a|] eqn:Ea.
  2:{ inversion H; subst. left. auto. }
  destruct (mem n fields_) eqn:Em;
    destruct (sub_fields_requested fields_ n) eqn:Es; simpl in H.
  - right. unfold bind in H. rewrite orb_true_r in *.
    destruct (rewrite_annotation cb fields_ recursive n a s)
      as [[a' s1]|] eqn:Er; [|discriminate].
    exists a, a'. repeat split; auto.
    + destruct (is_model_field_info_required fi); inversion H; subst; exact Er.
    + destruct (is_model_field_info_required fi); inversion H; subst; reflexivity.
  - right. unfold bind in H. rewrite orb_false_r in *.
    destruct recursive eqn:Erec.
    + destruct (rewrite_annotation cb fields_ true n a s)
        as [[a' s1]|] eqn:Er; [|discriminate].
      exists a, a'. repeat split; auto.
      * destruct (is_model_field_info_required fi); inversion H; subst; exact Er.
      * destruct (is_model_field_info_required fi); inversion H; subst; reflexivity.
    + exists a, a. unfold ret in H.
      destruct (is_model_field_info_required fi); inversion H; subst;
        repeat split; auto.
  - right. unfold bind in H. rewrite orb_true_r in *.
    destruct (rewrite_annotation cb fields_ recursive n a s)
      as [[a' s1]|] eqn:Er; [|discriminate].
    exists a, a'. unfold ret in H. inversion H; subst. repeat split; auto.
  - inversion H; subst. left. repeat split. right. split; reflexivity.
Qed.

Lemma field_step_preserved : forall d item s d' s',
  field_step cb fields_ recursive d item s = Some (d', s') -> R s s'.
Proof.
  intros d [n fi] s d' s' H. apply field_step_cases in H.
  destruct H as [[_ [-> _]]|[a [a' [_ [_ [H _]]]]]]; [apply R_refl|].
  destruct (recursive || sub_fields_requested fields_ n).
  - eapply rewrite_preserved; eassumption.
  - destruct H as [_ ->]. apply R_refl.
Qed.

Lemma field_step_other : forall d n fi s d' s' m,
  field_step cb fields_ recursive d (n, fi) s = Some (d', s') ->
  m <> n -> dict_get m d' = dict_get m d.
Proof.
  intros d n fi s d' s' m H Hne. apply field_step_cases in H.
  destruct H as [[-> _]|[a [a' [_ [_ [_ ->]]]]]]; [reflexivity|].
  destruct (mem n fields_); [destruct (is_model_field_info_required fi)|];
    try reflexivity; now apply dict_get_set_other.
Qed.

Lemma loop_preserved : forall fs d s d' s',
  foldM (field_step cb fields_ recursive) fs d s = Some (d', s') -> R s s'.
Proof.
  induction fs as [|item r IH]; simpl; intros d s d' s' H.
  - inversion H; subst. apply R_refl.
  - unfold bind in H.
    destruct (field_step cb fields_ recursive d item s) as [[d1 s1]|] eqn:E;
      [|discriminate].
    eapply R_trans; [eapply field_step_preserved; eassumption|].
    eapply IH; eassumption.
Qed.

(** The entry of a field in the final dictionary is the one its own turn
    of the loop wrote, the names of the fields being distinct. *)
Lemma loop_entry : forall fs d s d' s',
  NoDup (map fst fs) ->
  foldM (field_step cb fields_ recursive) fs d s = Some (d', s') ->
  (forall m, ~ In m (map fst fs) -> dict_get m d' = dict_get m d) /\
  (forall n fi, In (n, fi) fs ->
     exists d1 d2 s1 s2,
       R s s1 /\
       field_step cb fields_ recursive d1 (n, fi) s1 = Some (d2, s2) /\
       R s2 s' /\
       dict_get n d1 = dict_get n d /\
       dict_get n d' = dict_get n d2).
Proof.
  induction fs as [|[k f] r IH]; intros d s d' s' ND H;
    cbn [foldM] in H; cbn [map fst In] in ND |- *.
  - inversion H; subst. split; [reflexivity | tauto].
  - unfold bind in H.
    destruct (field_step cb fields_ recursive d (k, f) s) as [[d1 s1]|] eqn:E;
      [|discriminate].
    inversion ND as [|? ? Hk ND']; subst.
    destruct (IH _ _ _ _ ND' H) as [IH1 IH2].
    split.
    + intros m Hm. rewrite IH1 by tauto.
      eapply field_step_other; [eassumption|]. intro. subst. tauto.
    + intros n fi [Heq|Hin].
      * inversion Heq; subst k f.
        exists d, d1, s, s1.
        split; [apply R_refl|]. split; [exact E|].
        split; [eapply loop_preserved; eassumption|].
        split; [reflexivity | now apply IH1].
      * destruct (IH2 _ _ Hin) as [da [db [sa [sb [Ha [Hb [Hc [Hd He]]]]]]]].
        exists da, db, sa, sb.
        split; [eapply R_trans;
                [eapply field_step_preserved; eassumption | exact Ha]|].
        split; [exact Hb|]. split; [exact Hc|]. split; [|exact He].
        rewrite Hd. eapply field_step_other; [eassumption|].
        intro. subst. apply Hk. apply in_map_iff. exists (k, fi). auto.
Qed.

(** Every key of the final dictionary is the name of a field. *)
Lemma loop_keys : forall fs d s d' s',
  foldM (field_step cb fields_ recursive) fs d s = Some (d', s') ->
  forall m, dict_get m d' <> None ->
            dict_get m d <> None \/ In m (map fst fs).
Proof.
  induction fs as [|[k f] r IH]; intros d s d' s' H m Hm;
    cbn [foldM] in H; cbn [map fst In].
  - inversion H; subst. now left.
  - unfold bind in H.
    destruct (field_step cb fields_ recursive d (k, f) s) as [[d1 s1]|] eqn:E;
      [|discriminate].
    destruct (IH _ _ _ _ H m Hm) as [H1|H1]; [|tauto].
    destruct (String.eqb m k) eqn:Emk.
    + apply String.eqb_eq in Emk. subst. tauto.
    + apply String.eqb_neq in Emk.
      rewrite (field_step_other _ _ _ _ _ _ m E Emk) in H1. tauto.
Qed.

End Preserved.

(** ** The body and the memoised function *)

(** The class that [create_model] makes from [b] and the overrides [d]. *)
Lemma create_model_inv : forall name base d s c s',
  create_model name base d s = Some (c, s') ->
  exists b,
    get_class s base = Some b /\
    c = List.length (heap s) /\
    cache s' = cache s /\
    heap s' = heap s ++
      [mkClass name (Some base) (cls_partial b)
         (map (apply_override d) (model_fields b) ++
          map (fun kv => (fst kv, with_annotation (snd (snd kv)) (fst (snd kv))))
              (filter (fun kv => negb (mem (fst kv) (map fst (model_fields b)))) d))].
Proof.
  intros name base d s c s' H. unfold create_model in H.
  destruct (get_class s base) as [b|] eqn:G; [|discriminate].
  inversion H; subst. exists b. simpl. auto.
Qed.

Lemma body_inv : forall cb base_cls fields recursive s c s',
  create_partial_model_body cb base_cls fields recursive s = Some (c, s') ->
  exists b d s1,
    get_class s base_cls = Some b /\
    compute_optional_fields cb (effective_fields fields b) recursive
      (model_fields b) s = Some (d, s1) /\
    ((d = [] /\ c = base_cls /\ s' = s1) \/
     (d <> [] /\
      create_model (cls_name b ++ "Partial")%string base_cls d s1 = Some (c, s'))).
Proof.
  intros cb base_cls fields recursive s c s' H.
  unfold create_partial_model_body in H.
  destruct (get_class s base_cls) as [b|] eqn:G; [|discriminate].
  unfold bind in H.
  destruct (compute_optional_fields cb (effective_fields fields b) recursive
              (model_fields b) s) as [[d s1]|] eqn:E; [|discriminate].
  exists b, d, s1. split; [reflexivity|]. split; [exact E|].
  destruct d as [|x r].
  - left. inversion H; subst. auto.
  - right. split; [discriminate | exact H].
Qed.

Lemma create_partial_model_unfold : forall fuel base_cls fields kw s,
  create_partial_model fuel base_cls fields kw s =
  match cache_get (base_cls, fields, kw) (cache s) with
  | Some c => Some (c, s)
  | None =>
      match fuel with
      | O => None
      | S fuel' =>
          match create_partial_model_body
                  (fun c fs r => create_partial_model fuel' c fs (Some r))
                  base_cls fields (recursive_of kw) s with
          | Some (c, s') =>
              Some (c, mkState (heap s')
                               (cache_set (base_cls, fields, kw) c (cache s')))
          | None => None
          end
      end
  end.
Proof. intros [|fuel] base_cls fields kw s; reflexivity. Qed.

(** The body keeps whatever relation the nested calls keep and the making of
    a class keeps. *)
Lemma body_preserved : forall cb (R : state -> state -> Prop),
  (forall s, R s s) ->
  (forall a b c, R a b -> R b c -> R a c) ->
  (forall c fs r s c' s', cb c fs r s = Some (c', s') -> R s s') ->
  (forall name base d s c s',
     create_model name base d s = Some (c, s') -> R s s') ->
  forall base_cls fields recursive s c s',
    create_partial_model_body cb base_cls fields recursive s = Some (c, s') ->
    R s s'.
Proof.
  intros cb R Rr Rt Rcb Rcm base_cls fields recursive s c s' H.
  apply body_inv in H.
  destruct H as [b [d [s1 [G [L [[_ [_ ->]]|[_ C]]]]]]].
  - eapply loop_preserved; eassumption.
  - eapply Rt; [eapply loop_preserved; eassumption|].
    eapply Rcm; eassumption.
Qed.

Lemma create_model_ext : forall name base d s c s',
  create_model name base d s = Some (c, s') -> ext s s'.
Proof.
  intros name base d s c s' H. apply create_model_inv in H.
  destruct H as [b [_ [_ [Hc Hh]]]]. split.
  - eexists. exact Hh.
  - intros k v. now rewrite Hc.
Qed.

(** A call only adds classes to the heap and entries to the table. *)
Lemma create_partial_model_ext : forall fuel base_cls fields kw s c s',
  create_partial_model fuel base_cls fields kw s = Some (c, s') -> ext s s'.
Proof.
  induction fuel as [|fuel IH]; intros base_cls fields kw s c s' H;
    rewrite create_partial_model_unfold in H;
    destruct (cache_get (base_cls, fields, kw) (cache s)) as [c0|] eqn:Hit;
    try (inversion H; subst; apply ext_refl); try discriminate.
  destruct (create_partial_model_body _ base_cls fields (recursive_of kw) s)
    as [[c1 s1]|] eqn:B; [|discriminate].
  inversion H; subst c1 s'. clear H.
  assert (E : ext s s1).
  { eapply body_preserved; [apply ext_refl | apply ext_trans | | | exact B].
    - intros c0 fs r s0 c' s' Hc. cbv beta in Hc. eapply IH; exact Hc.
    - apply create_model_ext. }
  destruct E as [E1 E2]. split.
  - exact E1.
  - intros k v Hk. simpl.
    rewrite cache_get_set_other; [now apply E2|].
    intro. subst k. congruence.
Qed.

(** The table holds the result of a call that returned. *)
Lemma create_partial_model_cached : forall fuel base_cls fields kw s c s',
  create_partial_model fuel base_cls fields kw s = Some (c, s') ->
  cache_get (base_cls, fields, kw) (cache s') = Some c.
Proof.
  intros fuel base_cls fields kw s c s' H.
  rewrite create_partial_model_unfold in H.
  destruct (cache_get (base_cls, fields, kw) (cache s)) as [c0|] eqn:Hit.
  - inversion H; subst. exact Hit.
  - destruct fuel as [|fuel]; [discriminate|].
    destruct (create_partial_model_body _ base_cls fields (recursive_of kw) s)
      as [[c1 s1]|]; [|discriminate].
    inversion H; subst. simpl. apply cache_get_set_same.
Qed.

(** A call whose key is in the table returns the stored class at once. *)
Lemma create_partial_model_hit : forall fuel base_cls fields kw s c,
  cache_get (base_cls, fields, kw) (cache s) = Some c ->
  create_partial_model fuel base_cls fields kw s = Some (c, s).
Proof.
  intros fuel base_cls fields kw s c H.
  rewrite create_partial_model_unfold. now rewrite H.
Qed.

(** ** Every entry of the table is the result of a run of the body *)

Lemma sound_step : forall fuel base_cls fields kw s c s',
  reachable s -> sound s ->
  create_partial_model fuel base_cls fields kw s = Some (c, s') ->
  sound s'.
Proof.
  induction fuel as [|fuel IH]; intros base_cls fields kw s c s' Hr Hs H;
    pose proof H as Hcall;
    rewrite create_partial_model_unfold in H;
    destruct (cache_get (base_cls, fields, kw) (cache s)) as [c0|] eqn:Hit;
    try (inversion H; subst; exact Hs); try discriminate.
  destruct (create_partial_model_body _ base_cls fields (recursive_of kw) s)
    as [[c1 s1]|] eqn:B; [|discriminate].
  inversion H; subst c1 s'. clear H.
  pose proof B as B'.
  apply body_inv in B'.
  destruct B' as [b [d [sl [G [L Fin]]]]].
  (* the state after the loop is reachable and sound *)
  assert (Hl : (reachable sl /\ sound sl) /\ ext s sl).
  { assert (P : (reachable s /\ sound s) /\ ext s s -> 
                (reachable sl /\ sound sl) /\ ext s sl).
    { apply (loop_preserved
               (fun c fs r => create_partial_model fuel c fs (Some r))
               (effective_fields fields b) (recursive_of kw)
               (fun a z => (reachable a /\ sound a) /\ ext s a ->
                           (reachable z /\ sound z) /\ ext s z))
        with (fs := model_fields b) (d := []) (d' := d).
      - tauto.
      - tauto.
      - intros c2 fs r a c' z Hc [[Ra Sa] Ea]. cbv beta in Hc.
        split; [split|].
        + eapply reach_call; eassumption.
        + eapply IH; eassumption.
        + eapply ext_trans; [exact Ea|].
          eapply create_partial_model_ext; eassumption.
      - exact L. }
    apply P. split; [split; assumption | apply ext_refl]. }
  destruct Hl as [[Rl Sl] El].
  assert (Hh : heap_le sl s1 /\ cache s1 = cache sl).
  { destruct Fin as [[_ [_ ->]]|[_ C]].
    - split; [apply heap_le_refl | reflexivity].
    - apply create_model_inv in C. destruct C as [b1 [_ [_ [Hc Hp]]]].
      split; [eexists; exact Hp | exact Hc]. }
  destruct Hh as [Hh Hc].
  intros T S kw' c' Hg. simpl in Hg.
  destruct (key_eqb (T, S, kw') (base_cls, fields, kw)) eqn:Ek.
  - apply key_eqb_eq in Ek. inversion Ek; subst T S kw'.
    rewrite cache_get_set_same in Hg. inversion Hg; subst c'.
    exists fuel, s, s1. split; [exact Hr|]. split; [exact B|]. split.
    + eapply heap_le_trans; [apply El | exact Hh].
    + exists []. simpl. now rewrite app_nil_r.
  - rewrite cache_get_set_other in Hg.
    2:{ intro X. rewrite X, key_eqb_refl in Ek. discriminate. }
    rewrite Hc in Hg. destruct (Sl _ _ _ _ Hg) as [f0 [a [z [H1 [H2 [H3 H4]]]]]].
    exists f0, a, z. split; [exact H1|]. split; [exact H2|]. split; [exact H3|].
    eapply heap_le_trans; [exact H4|]. exact Hh.
Qed.

Lemma reachable_sound : forall s, reachable s -> sound s.
Proof.
  induction 1 as [h|s fuel T S kw c s' Hr IH Hc].
  - intros T S kw c H. discriminate.
  - eapply sound_step; eassumption.
Qed.

(** In a state of the process, a call that returns [c] returns the result of
    a run of the body for the same arguments. *)
Lemma create_partial_model_derived : forall fuel base_cls fields kw s c s',
  reachable s ->
  create_partial_model fuel base_cls fields kw s = Some (c, s') ->
  derived_by base_cls fields kw c s'.
Proof.
  intros fuel base_cls fields kw s c s' Hr H.
  assert (Hs : sound s') by
    (apply reachable_sound; eapply reach_call; eassumption).
  apply Hs. eapply create_partial_model_cached; eassumption.
Qed.

(** ** Termination

    A call returns when the nesting of derivable models below the base class
    is no deeper than the fuel. *)

Lemma bounded_unfold : forall h m c,
  bounded h (S m) c =
  match nth_error h c with
  | None => false
  | Some o => forallb (ok_field h m) (model_fields o)
  end.
Proof. reflexivity. Qed.

Lemma nth_error_over : forall (h t : list class_obj) c o,
  nth_error h c = Some o -> nth_error (h ++ t) c = Some o.
Proof.
  intros h t c o H. rewrite nth_error_app1; [exact H|].
  apply nth_error_Some. congruence.
Qed.

Lemma bounded_over : forall t h m c,
  bounded h m c = true -> bounded (h ++ t) m c = true.
Proof.
  intros t h. induction m as [|m IH]; intros c H; [discriminate|].
  rewrite bounded_unfold in *.
  destruct (nth_error h c) as [o|] eqn:E; [|discriminate].
  rewrite (nth_error_over _ t _ _ E).
  rewrite forallb_forall in *. intros item Hin. specialize (H item Hin).
  unfold ok_field in *. destruct (fi_annotation (snd item)); [|reflexivity].
  rewrite forallb_forall in *. intros d Hd. specialize (H d Hd).
  unfold ok_target in *.
  destruct (nth_error h d) as [od|] eqn:Ed; [|discriminate].
  rewrite (nth_error_over _ t _ _ Ed).
  destruct (cls_partial od); simpl in *; [now apply IH | reflexivity].
Qed.

Section Total.

Variable cb : cls -> list string -> bool -> M cls.
Variable fields_ : list string.
Variable recursive : bool.
Variable h : list class_obj.
Variable m : nat.
Hypothesis cb_total : forall d fs r s,
  over h s -> is_partial_model s d = true -> ok_target h m d = true ->
  exists c' s', cb d fs r s = Some (c', s') /\ over h s'.

Lemma arg_total : forall n a s,
  over h s ->
  (forall d, a = TModel d -> ok_target h m d = true) ->
  exists a' s',
    _partial_annotation_arg cb fields_ recursive n a s = Some (a', s') /\
    over h s'.
Proof.
  intros n a s Ho Ha. unfold _partial_annotation_arg.
  destruct a; try (eexists; eexists; split; [reflexivity | exact Ho]).
  pose proof (Ha c eq_refl) as Hk. pose proof Hk as Hv.
  unfold ok_target in Hv.
  destruct (nth_error h c) as [o|] eqn:En; [|discriminate].
  assert (G : get_class s c = Some o).
  { destruct Ho as [t Ht]. unfold get_class. rewrite Ht.
    now apply nth_error_over. }
  rewrite G. destruct (cls_partial o) eqn:Ep.
  - destruct (cb_total c (children_fields fields_ n) recursive s Ho) as
      [c' [s' [E1 E2]]].
    + unfold is_partial_model. now rewrite G.
    + exact Hk.
    + exists (TModel c'), s'. unfold bind, ret. rewrite E1. auto.
  - eexists; eexists; split; [reflexivity | exact Ho].
Qed.

Lemma mapM_total : forall n args s,
  over h s ->
  (forall d, In (TModel d) args -> ok_target h m d = true) ->
  exists args' s',
    mapM (_partial_annotation_arg cb fields_ recursive n) args s
      = Some (args', s') /\ over h s'.
Proof.
  intros n args. induction args as [|a r IH]; intros s Ho Ha.
  - exists [], s. split; [reflexivity | exact Ho].
  - destruct (arg_total n a s Ho) as [a' [s1 [E1 O1]]].
    { intros d ->. apply Ha. now left. }
    destruct (IH s1 O1) as [r' [s2 [E2 O2]]].
    { intros d Hd. apply Ha. now right. }
    exists (a' :: r'), s2. cbn [mapM]. unfold bind, ret.
    rewrite E1, E2. auto.
Qed.

Lemma rewrite_total : forall n a s,
  over h s ->
  forallb (ok_target h m) (targets a) = true ->
  exists a' s',
    rewrite_annotation cb fields_ recursive n a s = Some (a', s') /\
    over h s'.
Proof.
  intros n a s Ho Ht. rewrite forallb_forall in Ht.
  unfold rewrite_annotation.
  destruct a as [| |c|o args]; cbn [get_origin rebuilt_origin get_args].
  - apply arg_total; [exact Ho | discriminate].
  - apply arg_total; [exact Ho | discriminate].
  - apply arg_total; [exact Ho|]. intros d E. inversion E; subst.
    apply Ht. now left.
  - destruct (rebuilt_origin (Some o)) eqn:Eo.
    + destruct (mapM_total n args s Ho) as [args' [s' [E1 O1]]].
      { intros d Hd. apply Ht. unfold targets. rewrite Eo.
        apply in_flat_map. exists (TModel d). split; [exact Hd | now left]. }
      exists (subscript o args'), s'.
      cbn [rebuilt_origin] in Eo. rewrite Eo.
      unfold bind, ret. rewrite E1. auto.
    + cbn [rebuilt_origin] in Eo. rewrite Eo.
      apply arg_total; [exact Ho | discriminate].
Qed.

Lemma field_step_total : forall d item s,
  over h s -> ok_field h m item = true ->
  exists d' s',
    field_step cb fields_ recursive d item s = Some (d', s') /\ over h s'.
Proof.
  intros d [n fi] s Ho Hf. unfold ok_field in Hf. cbn [snd] in Hf.
  unfold field_step, get_model_field_info_annotation.
  destruct (fi_annotation fi) as [a|];
    [|eexists; eexists; split; [reflexivity | exact Ho]].
  destruct (negb (mem n fields_) && negb (sub_fields_requested fields_ n));
    [eexists; eexists; split; [reflexivity | exact Ho]|].
  unfold bind.
  destruct (recursive || sub_fields_requested fields_ n).
  - destruct (rewrite_total n a s Ho Hf) as [a' [s' [E O]]]. rewrite E.
    destruct (mem n fields_); [destruct (is_model_field_info_required fi)|];
      eexists; eexists; split; try reflexivity; exact O.
  - unfold ret.
    destruct (mem n fields_); [destruct (is_model_field_info_required fi)|];
      eexists; eexists; split; try reflexivity; exact Ho.
Qed.

Lemma loop_total : forall fs d s,
  over h s -> forallb (ok_field h m) fs = true ->
  exists d' s',
    foldM (field_step cb fields_ recursive) fs d s = Some (d', s') /\
    over h s'.
Proof.
  induction fs as [|item r IH]; intros d s Ho Hf.
  - exists d, s. split; [reflexivity | exact Ho].
  - cbn [forallb] in Hf. apply andb_true_iff in Hf. destruct Hf as [H1 H2].
    destruct (field_step_total d item s Ho H1) as [d1 [s1 [E1 O1]]].
    destruct (IH d1 s1 O1 H2) as [d2 [s2 [E2 O2]]].
    exists d2, s2. cbn [foldM]. unfold bind. rewrite E1. auto.
Qed.

End Total.

Lemma over_self : forall s, over (heap s) s.
Proof. intro s. exists []. now rewrite app_nil_r. Qed.

Lemma over_heap_le : forall s s', over (heap s) s' <-> heap_le s s'.
Proof. intros s s'. unfold over, heap_le. tauto. Qed.

Lemma over_trans : forall h s s', over h s -> heap_le s s' -> over h s'.
Proof.
  intros h s s' [t H] [u G]. exists (t ++ u). rewrite G, H.
  now rewrite app_assoc.
Qed.

Theorem create_partial_model_total : forall fuel base_cls fields kw s,
  bounded (heap s) fuel base_cls = true ->
  exists c s', create_partial_model fuel base_cls fields kw s = Some (c, s').
Proof.
  induction fuel as [|fuel IH]; intros base_cls fields kw s Hb; [discriminate|].
  rewrite create_partial_model_unfold.
  destruct (cache_get (base_cls, fields, kw) (cache s)) as [c0|];
    [eexists; eexists; reflexivity|].
  rewrite bounded_unfold in Hb.
  unfold create_partial_model_body, get_class.
  destruct (nth_error (heap s) base_cls) as [o|] eqn:E; [|discriminate].
  unfold bind, compute_optional_fields.
  destruct (loop_total (fun c fs r => create_partial_model fuel c fs (Some r))
              (effective_fields fields o) (recursive_of kw) (heap s) fuel)
    with (fs := model_fields o) (d := @nil (string * override)) (s := s)
    as [d [sl [L O]]].
  - intros d fs r s1 Ho Hp Hk.
    destruct Ho as [t Ht].
    assert (Hbd : bounded (heap s1) fuel d = true).
    { rewrite Ht. apply bounded_over. unfold ok_target in Hk.
      destruct (nth_error (heap s) d) as [od|] eqn:Ed; [|discriminate].
      unfold is_partial_model, get_class in Hp.
      rewrite Ht, (nth_error_over _ t _ _ Ed) in Hp. rewrite Hp in Hk.
      exact Hk. }
    destruct (IH d fs (Some r) s1 Hbd) as [c' [s' Hc]].
    exists c', s'. split; [exact Hc|].
    eapply over_trans; [exists t; exact Ht|].
    apply (create_partial_model_ext _ _ _ _ _ _ _ Hc).
  - apply over_self.
  - exact Hb.
  - rewrite L. destruct d as [|x r].
    + eexists; eexists; reflexivity.
    + unfold create_model, get_class. destruct O as [t Ht].
      rewrite Ht, (nth_error_over _ t _ _ E). eexists; eexists; reflexivity.
Qed.

(** ** The fields of the derived class *)

Lemma lookup_field_In : forall n f fs,
  lookup_field n fs = Some f -> In (n, f) fs.
Proof.
  intros n f fs. induction fs as [|[k g] r IH]; simpl; [discriminate|].
  destruct (String.eqb n k) eqn:E.
  - apply String.eqb_eq in E. intro H. inversion H; subst. now left.
  - intro H. right. now apply IH.
Qed.

Lemma In_lookup_field : forall n f fs,
  NoDup (map fst fs) -> In (n, f) fs -> lookup_field n fs = Some f.
Proof.
  intros n f fs. induction fs as [|[k g] r IH]; simpl; [tauto|].
  intros ND [H|H].
  - inversion H; subst. now rewrite String.eqb_refl.
  - inversion ND as [|? ? Hk ND']; subst.
    destruct (String.eqb n k) eqn:E.
    + apply String.eqb_eq in E. subst. exfalso. apply Hk.
      apply in_map_iff. exists (k, f). auto.
    + now apply IH.
Qed.

Lemma lookup_field_names : forall n fs,
  lookup_field n fs <> None <-> In n (map fst fs).
Proof.
  intros n fs. induction fs as [|[k g] r IH]; simpl; [tauto|].
  destruct (String.eqb n k) eqn:E.
  - apply String.eqb_eq in E. subst. split; [auto | discriminate].
  - apply String.eqb_neq in E. rewrite IH. split; [auto|].
    intros [H|H]; [congruence | exact H].
Qed.

Lemma lookup_field_override : forall d n fs,
  lookup_field n (map (apply_override d) fs) =
  match lookup_field n fs with
  | Some f => Some (snd (apply_override d (n, f)))
  | None => None
  end.
Proof.
  intros d n fs. induction fs as [|[k g] r IH]; simpl; [reflexivity|].
  assert (Hk : fst (apply_override d (k, g)) = k).
  { unfold apply_override. simpl. destruct (dict_get k d) as [[a fi]|]; reflexivity. }
  destruct (apply_override d (k, g)) as [k' g'] eqn:Ea. simpl in Hk. subst k'.
  destruct (String.eqb n k) eqn:E.
  - apply String.eqb_eq in E. subst. now rewrite Ea.
  - exact IH.
Qed.

Lemma names_override : forall d fs,
  map fst (map (apply_override d) fs) = map fst fs.
Proof.
  intros d fs. rewrite map_map. apply map_ext. intros [k g].
  unfold apply_override. simpl. destruct (dict_get k d) as [[a fi]|]; reflexivity.
Qed.

Lemma apply_override_nil : forall fs, map (apply_override []) fs = fs.
Proof.
  intro fs. rewrite <- (map_id fs) at 2. apply map_ext. now intros [k g].
Qed.

Lemma get_class_fresh : forall s o,
  get_class (mkState (heap s ++ [o]) (cache s)) (List.length (heap s)) = Some o.
Proof.
  intros s o. unfold get_class. simpl.
  rewrite nth_error_app2 by lia. now rewrite Nat.sub_diag.
Qed.

Lemma get_class_lt : forall s c o,
  get_class s c = Some o -> c < List.length (heap s).
Proof.
  intros s c o H. apply nth_error_Some. unfold get_class in H. congruence.
Qed.

Lemma filter_none : forall (A : Type) (p : A -> bool) (l : list A),
  (forall x, In x l -> p x = false) -> filter p l = [].
Proof.
  intros A p l. induction l as [|x r IH]; intro H; [reflexivity|].
  simpl. rewrite (H x (or_introl eq_refl)). apply IH.
  intros y Hy. apply H. now right.
Qed.

Lemma nested_ext : forall fuel c fs r s c' s',
  nested fuel c fs r s = Some (c', s') -> ext s s'.
Proof. intros. eapply create_partial_model_ext; eassumption. Qed.

(** The result of a run of the body: the class it names has the fields of
    the base class with the overrides of the loop in their places. *)
Lemma body_result : forall fuel base_cls fields recursive s c s',
  create_partial_model_body (nested fuel) base_cls fields recursive s
    = Some (c, s') ->
  exists b d sl o',
    get_class s base_cls = Some b /\
    compute_optional_fields (nested fuel) (effective_fields fields b) recursive
      (model_fields b) s = Some (d, sl) /\
    ext s sl /\ heap_le sl s' /\ cache s' = cache sl /\
    get_class s' c = Some o' /\
    model_fields o' = map (apply_override d) (model_fields b) /\
    cls_partial o' = cls_partial b /\
    (d = [] -> c = base_cls /\ s' = sl) /\
    (d <> [] -> c = List.length (heap sl)).
Proof.
  intros fuel base_cls fields recursive s c s' H.
  apply body_inv in H. destruct H as [b [d [sl [G [L Fin]]]]].
  assert (E : ext s sl).
  { eapply (loop_preserved (nested fuel) _ _ ext ext_refl ext_trans
              (nested_ext fuel)). exact L. }
  assert (Gl : get_class sl base_cls = Some b).
  { eapply heap_le_get_class; [apply E | exact G]. }
  destruct Fin as [[-> [-> ->]]|[Hd C]].
  - exists b, [], sl, b. rewrite apply_override_nil.
    split; [exact G|]. split; [exact L|]. split; [exact E|].
    split; [apply heap_le_refl|]. split; [reflexivity|].
    split; [exact Gl|]. split; [reflexivity|]. split; [reflexivity|].
    split; [auto | intro X; now elim X].
  - pose proof C as C'. apply create_model_inv in C'.
    destruct C' as [b1 [G1 [Hc [Hca Hh]]]].
    rewrite Gl in G1. inversion G1; subst b1. clear G1.
    assert (Hadd :
      filter (fun kv => negb (mem (fst kv) (map fst (model_fields b)))) d = []).
    { apply filter_none. intros [k v] Hin. cbn [fst].
      apply negb_false_iff. apply mem_In.
      pose proof (dict_get_in _ _ _ Hin) as Hk.
      destruct (loop_keys _ _ _ _ _ _ _ _ L k Hk) as [X|X]; [now elim X | exact X]. }
    rewrite Hadd in Hh. cbn [map] in Hh. rewrite app_nil_r in Hh.
    eexists b, d, sl, _.
    split; [exact G|]. split; [exact L|]. split; [exact E|].
    split; [eexists; exact Hh|]. split; [exact Hca|].
    split.
    { unfold get_class. rewrite Hh, Hc.
      rewrite nth_error_app2 by lia. rewrite Nat.sub_diag. reflexivity. }
    split; [reflexivity|]. split; [reflexivity|].
    split; [intro X; contradiction | intros _; exact Hc].
Qed.

(** The result of a call in a state of the process: it is the result of a
    run of the body in a state [s0] of the process, which is [s] itself when
    the table of [s] has no entry for the call. *)
Lemma create_partial_model_result : forall fuel base_cls fields kw s c s' b,
  reachable s ->
  create_partial_model fuel base_cls fields kw s = Some (c, s') ->
  get_class s base_cls = Some b ->
  exists f0 s0 d sl o',
    reachable s0 /\ get_class s0 base_cls = Some b /\
    compute_optional_fields (nested f0) (effective_fields fields b)
      (recursive_of kw) (model_fields b) s0 = Some (d, sl) /\
    ext s0 sl /\ heap_le sl s' /\
    get_class s' c = Some o' /\
    model_fields o' = map (apply_override d) (model_fields b) /\
    cls_partial o' = cls_partial b /\
    (d = [] -> c = base_cls) /\
    (d <> [] -> c <> base_cls) /\
    (cache_get (base_cls, fields, kw) (cache s) = None ->
       s0 = s /\
       forall k v, k <> (base_cls, fields, kw) ->
                   cache_get k (cache sl) = Some v ->
                   cache_get k (cache s') = Some v).
Proof.
  intros fuel base_cls fields kw s c s' b Hr H G.
  pose proof (create_partial_model_ext _ _ _ _ _ _ _ H) as [Hss _].
  assert (Gs' : get_class s' base_cls = Some b)
    by (eapply heap_le_get_class; eassumption).
  assert (Main : forall f0 s0 s1,
    reachable s0 ->
    create_partial_model_body (nested f0) base_cls fields (recursive_of kw) s0
      = Some (c, s1) ->
    heap_le s1 s' ->
    exists d sl o',
      get_class s0 base_cls = Some b /\
      compute_optional_fields (nested f0) (effective_fields fields b)
        (recursive_of kw) (model_fields b) s0 = Some (d, sl) /\
      ext s0 sl /\ heap_le sl s' /\ cache s1 = cache sl /\
      get_class s' c = Some o' /\
      model_fields o' = map (apply_override d) (model_fields b) /\
      cls_partial o' = cls_partial b /\
      (d = [] -> c = base_cls) /\
      (d <> [] -> c <> base_cls)).
  { intros f0 s0 s1 R0 B Hle.
    apply body_result in B.
    destruct B as [b0 [d [sl [o' [G0 [L [E [Hl [Hc [Gc [Hf [Hp [Hn Hd]]]]]]]]]]]]].
    assert (b0 = b).
    { assert (X : get_class s' base_cls = Some b0).
      { eapply heap_le_get_class; [|exact G0].
        eapply heap_le_trans; [apply E|].
        eapply heap_le_trans; eassumption. }
      congruence. }
    subst b0. exists d, sl, o'.
    split; [exact G0|]. split; [exact L|]. split; [exact E|].
    split; [eapply heap_le_trans; eassumption|]. split; [exact Hc|].
    split; [eapply heap_le_get_class; eassumption|].
    split; [exact Hf|]. split; [exact Hp|].
    split; [intro X; now apply Hn|].
    intros X. rewrite (Hd X).
    assert (Gl : get_class sl base_cls = Some b)
      by (eapply heap_le_get_class; [apply E | exact G0]).
    apply get_class_lt in Gl. lia. }
  destruct (cache_get (base_cls, fields, kw) (cache s)) as [c0|] eqn:Hit.
  - destruct (create_partial_model_derived _ _ _ _ _ _ _ Hr H)
      as [f0 [s0 [s1 [R0 [B [_ Hle]]]]]].
    destruct (Main f0 s0 s1 R0 B Hle)
      as [d [sl [o' [X1 [X2 [X3 [X4 [_ [X5 [X6 [X7 [X8 X9]]]]]]]]]]]].
    exists f0, s0, d, sl, o'.
    repeat (split; [assumption|]). discriminate.
  - rewrite create_partial_model_unfold, Hit in H.
    destruct fuel as [|f0]; [discriminate|].
    destruct (create_partial_model_body _ base_cls fields (recursive_of kw) s)
      as [[c1 s1]|] eqn:B; [|discriminate].
    inversion H; subst c1 s'. clear H.
    destruct (Main f0 s s1 Hr B)
      as [d [sl [o' [X1 [X2 [X3 [X4 [Hc [X5 [X6 [X7 [X8 X9]]]]]]]]]]]].
    { exists []. simpl. now rewrite app_nil_r. }
    exists f0, s, d, sl, o'.
    repeat (split; [assumption|]).
    intros _. split; [reflexivity|].
    intros k v Hk Hv. simpl. rewrite cache_get_set_other by exact Hk.
    now rewrite Hc.
Qed.

Lemma field_of_result : forall s c o d b n,
  get_class s c = Some o ->
  model_fields o = map (apply_override d) (model_fields b) ->
  field_of s c n =
  match lookup_field n (model_fields b) with
  | Some f =>
      match dict_get n d with
      | Some (a, fi) => Some (with_annotation fi a)
      | None => Some f
      end
  | None => None
  end.
Proof.
  intros s c o d b n G Hf. unfold field_of. rewrite G, Hf.
  rewrite lookup_field_override.
  destruct (lookup_field n (model_fields b)) as [f|]; [|reflexivity].
  unfold apply_override. cbn [fst].
  destruct (dict_get n d) as [[a fi]|]; reflexivity.
Qed.

(** ** Selectors and names *)

Lemma prefix_cons : forall a p c r,
  String.prefix (String a p) (String c r) =
  if Ascii.eqb a c then String.prefix p r else false.
Proof.
  intros a p c r. cbn [String.prefix].
  destruct (ascii_dec a c) as [E|E].
  - subst. now rewrite Ascii.eqb_refl.
  - apply Ascii.eqb_neq in E. now rewrite E.
Qed.

Lemma prefix_dot_dotfree : forall p s,
  dotfree s = true -> String.prefix (p ++ ".") s = false.
Proof.
  induction p as [|a p IH]; intros [|c r] H; try reflexivity;
    cbn [append dotfree] in *; rewrite prefix_cons;
    apply andb_true_iff in H; destruct H as [H1 H2].
  - apply negb_true_iff in H1. rewrite Ascii.eqb_sym. now rewrite H1.
  - destruct (Ascii.eqb a c); [now apply IH | reflexivity].
Qed.

Lemma sub_fields_dotfree : forall fs n,
  forallb dotfree fs = true -> sub_fields_requested fs n = false.
Proof.
  intros fs n H. unfold sub_fields_requested.
  induction fs as [|f r IH]; [reflexivity|].
  simpl in *. apply andb_true_iff in H. destruct H as [H1 H2].
  unfold startswith at 1. rewrite (prefix_dot_dotfree n f H1). now apply IH.
Qed.

Lemma prefix_nil : forall r, String.prefix "" r = true.
Proof. now destruct r. Qed.

Lemma prefix_append : forall p r, String.prefix p (p ++ r) = true.
Proof.
  induction p as [|a p IH]; intro r; cbn [append].
  - apply prefix_nil.
  - rewrite prefix_cons, Ascii.eqb_refl. apply IH.
Qed.

Lemma length_append : forall p r,
  String.length (p ++ r) = String.length p + String.length r.
Proof. induction p as [|a p IH]; intro r; simpl; [reflexivity | now rewrite IH]. Qed.

Lemma substring_all : forall r, substring 0 (String.length r) r = r.
Proof. induction r as [|a r IH]; simpl; [reflexivity | now rewrite IH]. Qed.

Lemma substring_skip : forall p k r,
  substring (String.length p) k (p ++ r) = substring 0 k r.
Proof. induction p as [|a p IH]; intros k r; simpl; [reflexivity | apply IH]. Qed.

Lemma removeprefix_append : forall p r, removeprefix p (p ++ r) = r.
Proof.
  intros p r. unfold removeprefix. rewrite prefix_append, length_append.
  replace (String.length p + String.length r - String.length p)
    with (String.length r) by lia.
  rewrite substring_skip. apply substring_all.
Qed.

Lemma append_assoc : forall a b c : string, ((a ++ b) ++ c = a ++ (b ++ c))%string.
Proof. induction a as [|x a IH]; intros b c; simpl; [reflexivity | now rewrite IH]. Qed.

(** Two names without a dot that are followed by a dot in the same string
    are the same name. *)
Lemma prefix_dot_same : forall m n r,
  dotfree m = true -> dotfree n = true ->
  String.prefix (m ++ ".") (n ++ "." ++ r) = true -> m = n.
Proof.
  induction m as [|a m IH]; intros [|c n] r Hm Hn H;
    cbn [append dotfree] in *; try rewrite prefix_cons in H.
  - reflexivity.
  - apply andb_true_iff in Hn. destruct Hn as [Hn _].
    apply negb_true_iff in Hn. rewrite Ascii.eqb_sym, Hn in H. discriminate.
  - apply andb_true_iff in Hm. destruct Hm as [Hm _].
    apply negb_true_iff in Hm. rewrite Hm in H. discriminate.
  - apply andb_true_iff in Hm. destruct Hm as [_ Hm].
    apply andb_true_iff in Hn. destruct Hn as [_ Hn].
    destruct (Ascii.eqb a c) eqn:E; [|discriminate].
    apply Ascii.eqb_eq in E. subst c. f_equal. eapply IH; eassumption.
Qed.

Lemma dotfree_append_dot : forall n r, dotfree (n ++ String "." r) = false.
Proof.
  induction n as [|a n IH]; intro r; cbn [append dotfree].
  - now rewrite Ascii.eqb_refl.
  - rewrite IH. apply andb_false_r.
Qed.

(** * The claims *)

(** ** C1: the memoisation *)

Lemma later_ext : forall s s', later s s' -> ext s s'.
Proof.
  induction 1 as [s|s s1 fuel T S kw c s2 _ IH Hc]; [apply ext_refl|].
  eapply ext_trans; [exact IH|].
  eapply create_partial_model_ext; eassumption.
Qed.

(** C1. Two calls with identical arguments return the identical class
    object: once a call [create_partial_model(T, *S, recursive=r)] has
    returned the class [c], the same call in the state it left, or in any
    state that the process reaches later, returns [c] again, with whatever
    fuel, and leaves the heap and the table as they are: the class is not
    computed a second time. *)
Theorem C1_identical_object :
  forall fuel base_cls fields kw s c s1 s2 fuel',
    create_partial_model fuel base_cls fields kw s = Some (c, s1) ->
    later s1 s2 ->
    create_partial_model fuel' base_cls fields kw s2 = Some (c, s2).
Proof.
  intros fuel base_cls fields kw s c s1 s2 fuel' H L.
  apply create_partial_model_hit.
  apply (proj2 (later_ext _ _ L)).
  eapply create_partial_model_cached; eassumption.
Qed.

Lemma C1_identical_object_witness :
  exists c s1,
    create_partial_model 3 2 [] None ex_state = Some (c, s1) /\
    create_partial_model 0 2 [] None s1 = Some (c, s1).
Proof.
  eexists. eexists. split.
  - vm_compute. reflexivity.
  - eapply (C1_identical_object 3 2 [] None ex_state).
    + vm_compute. reflexivity.
    + apply later_refl.
Defined.

(** ** C9: which annotations are rebuilt *)

(** C9. Only an annotation whose origin is a union, a list, a tuple or a
    dict is rebuilt from its rewritten arguments.  For any other parametrized
    annotation, such as a set of a derivable model, the rewriting returns the
    annotation as it is and calls nothing, whatever the recursion flag and
    the selectors are; and a turn of the loop on a field with such an
    annotation leaves the state as it is and emits, if anything, an override
    that carries this very annotation. *)
Theorem C9_other_containers_unchanged :
  forall cb fields_ recursive n o args,
    o <> OUnion -> o <> OList -> o <> OTuple -> o <> ODict ->
    (forall s, rewrite_annotation cb fields_ recursive n (TGeneric o args) s
               = Some (TGeneric o args, s)) /\
    (forall d fi s,
       fi_annotation fi = Some (TGeneric o args) ->
       exists d',
         field_step cb fields_ recursive d (n, fi) s = Some (d', s) /\
         (d' = d \/
          d' = dict_set n (TGeneric o args, copy_model_field_info fi []) d \/
          d' = dict_set n (Optional_ (TGeneric o args),
                           copy_model_field_info fi optional_kwargs) d)).
Proof.
  intros cb fields_ recursive n o args H1 H2 H3 H4.
  assert (Hr : forall s,
    rewrite_annotation cb fields_ recursive n (TGeneric o args) s
    = Some (TGeneric o args, s)).
  { intro s. unfold rewrite_annotation. cbn [get_origin].
    destruct o; try congruence. reflexivity. }
  split; [exact Hr|].
  intros d fi s Ha. unfold field_step, get_model_field_info_annotation.
  rewrite Ha.
  destruct (mem n fields_); destruct (sub_fields_requested fields_ n);
    cbn [negb andb]; unfold bind;
    try rewrite orb_true_r; try rewrite orb_false_r;
    try rewrite Hr.
  - destruct (is_model_field_info_required fi); eexists; split;
      try reflexivity; tauto.
  - destruct recursive; try rewrite Hr;
      destruct (is_model_field_info_required fi); eexists; split;
      try reflexivity; tauto.
  - eexists; split; [reflexivity | tauto].
  - eexists; split; [reflexivity | tauto].
Qed.

Lemma C9_other_containers_unchanged_witness :
  rewrite_annotation (nested 3) [] true "s" (TGeneric (OOther "set") [TModel 1])
    ex_state
  = Some (TGeneric (OOther "set") [TModel 1], ex_state).
Proof.
  apply (C9_other_containers_unchanged (nested 3) [] true "s" (OOther "set")
           [TModel 1]); discriminate.
Defined.

(** ** Descriptors of overrides *)

Lemma value_eqb_eq : forall a b, value_eqb a b = true -> a = b.
Proof.
  intros [] []; simpl; intro H; try discriminate; try reflexivity.
  - apply Bool.eqb_prop in H. now subst.
  - apply Z.eqb_eq in H. now subst.
  - apply String.eqb_eq in H. now subst.
  - apply String.eqb_eq in H. now subst.
Qed.

Lemma extra_get_set_same : forall k v e, extra_get k (extra_set k v e) = Some v.
Proof.
  intros k v e. induction e as [|[k' v'] r IH]; simpl.
  - now rewrite String.eqb_refl.
  - destruct (String.eqb k k') eqn:E; simpl.
    + now rewrite String.eqb_refl.
    + now rewrite E.
Qed.

(** The copy that makes a field optional.  The keyword [defaul_factory] is
    not the name of an attribute: it lands in the constraint metadata and the
    default factory is the one of the original. *)
Lemma copy_optional : forall f,
  copy_model_field_info f optional_kwargs =
  mkField (fi_annotation f) PyNone (fi_default_factory f)
    (extra_set "nullable" (PyBool true)
       (extra_set "defaul_factory" PyNone (fi_extra f))).
Proof. reflexivity. Qed.

Lemma copy_plain : forall f, copy_model_field_info f [] = f.
Proof. reflexivity. Qed.

Lemma with_annotation_same : forall f a,
  fi_annotation f = Some a -> with_annotation f a = f.
Proof. intros [x d g e] a H. simpl in H. subst. reflexivity. Qed.

Lemma is_none_eqb : forall x, ty_eqb x TNone = is_none x.
Proof. now destruct x. Qed.

Lemma existsb_none_filter : forall x l,
  is_none x = false ->
  existsb is_none (filter (fun y => negb (ty_eqb x y)) l) = existsb is_none l.
Proof.
  intros x l Hx. induction l as [|y r IH]; [reflexivity|].
  cbn [filter existsb]. destruct (ty_eqb x y) eqn:E; cbn [negb].
  - rewrite IH. destruct y; try reflexivity.
    rewrite is_none_eqb in E. congruence.
  - cbn [existsb]. now rewrite IH.
Qed.

Lemma existsb_none_dedupe : forall l,
  existsb is_none (dedupe l) = existsb is_none l.
Proof.
  induction l as [|x r IH]; [reflexivity|].
  cbn [dedupe existsb]. destruct (is_none x) eqn:Hx; [reflexivity|].
  cbn [orb]. now rewrite existsb_none_filter.
Qed.

(** [Optional[t]] admits [None], whatever [t] is. *)
Lemma accepts_none_Optional : forall t, accepts_none (Optional_ t) = true.
Proof.
  intro t. unfold Optional_, subscript.
  assert (H : existsb is_none (dedupe (flatten_union [t; TNone])) = true).
  { rewrite existsb_none_dedupe. unfold flatten_union. cbn [flat_map].
    rewrite existsb_app. cbn [app existsb is_none]. apply orb_true_r. }
  destruct (dedupe (flatten_union [t; TNone])) as [|x [|y r]].
  - discriminate.
  - cbn [existsb] in H. rewrite orb_false_r in H. now destruct x.
  - exact H.
Qed.

(** The states of the process are closed under the nested calls. *)
Lemma nested_reachable : forall fuel c fs r s c' s',
  nested fuel c fs r s = Some (c', s') -> reachable s -> reachable s'.
Proof. intros. eapply reach_call; eassumption. Qed.

(** ** C4: the override of a selected required field *)

(** C4. A field whose bare name is in the effective selector set and whose
    descriptor is required gets an override, which the derived class
    carries: its annotation is [Optional] of the rewritten annotation (the
    annotation itself when no nested rewriting applies), its default is
    [None], it has no default factory, it carries the constraint
    [nullable=True], and it is no longer required. *)
Theorem C4_selected_required_override :
  forall fuel base_cls fields kw s b n fi a,
    reachable s ->
    bounded (heap s) fuel base_cls = true ->
    get_class s base_cls = Some b ->
    nodupb (map fst (model_fields b)) = true ->
    lookup_field n (model_fields b) = Some fi ->
    mem n (effective_fields fields b) = true ->
    fi_annotation fi = Some a ->
    is_model_field_info_required fi = true ->
    exists c s' a' fi',
      create_partial_model fuel base_cls fields kw s = Some (c, s') /\
      field_of s' c n = Some fi' /\
      fi' = with_annotation (copy_model_field_info fi optional_kwargs)
                            (Optional_ a') /\
      (if recursive_of kw || sub_fields_requested (effective_fields fields b) n
       then exists f0 sa sb,
              reachable sa /\
              rewrite_annotation (nested f0) (effective_fields fields b)
                (recursive_of kw) n a sa = Some (a', sb)
       else a' = a) /\
      fi_annotation fi' = Some (Optional_ a') /\
      accepts_none (Optional_ a') = true /\
      fi_default fi' = PyNone /\
      fi_default_factory fi' = PyNone /\
      extra_get "nullable" (fi_extra fi') = Some (PyBool true) /\
      is_model_field_info_required fi' = false.
Proof.
  intros fuel base_cls fields kw s b n fi a Hr Hb G ND Hl Hm Ha Hq.
  destruct (create_partial_model_total fuel base_cls fields kw s Hb)
    as [c [s' Hc]].
  destruct (create_partial_model_result _ _ _ _ _ _ _ _ Hr Hc G)
    as [f0 [s0 [d [sl [o' [R0 [G0 [L [E [Hle [Gc [Hf [Hp [Hn [Hd Hmiss]]]]]]]]]]]]]]].
  apply nodupb_NoDup in ND.
  destruct (loop_entry (nested f0) (effective_fields fields b) (recursive_of kw)
              (fun x y => reachable x -> reachable y)
              (fun _ X => X) (fun _ _ _ X Y Z => Y (X Z))
              (nested_reachable f0) _ _ _ _ _ ND L) as [_ Hent].
  destruct (Hent n fi (lookup_field_In _ _ _ Hl))
    as [d1 [d2 [s1 [s2 [R1 [St [_ [_ Hg]]]]]]]].
  apply field_step_cases in St.
  destruct St as [[_ [_ [X|[X _]]]]|[a0 [a' [Ha0 [_ [Hrw Hd2]]]]]];
    [congruence | congruence |].
  rewrite Ha in Ha0. inversion Ha0; subst a0. clear Ha0.
  rewrite Hm, Hq in Hd2. subst d2. rewrite dict_get_set_same in Hg.
  exists c, s', a',
    (with_annotation (copy_model_field_info fi optional_kwargs) (Optional_ a')).
  split; [exact Hc|].
  split; [rewrite (field_of_result _ _ _ _ _ n Gc Hf), Hl, Hg; reflexivity|].
  split; [reflexivity|].
  split.
  { destruct (recursive_of kw || sub_fields_requested (effective_fields fields b) n).
    - exists f0, s1, s2. split; [apply R1, R0 | exact Hrw].
    - apply Hrw. }
  split; [reflexivity|]. split; [apply accepts_none_Optional|].
  split; [reflexivity|].
  unfold is_model_field_info_required in Hq.
  apply andb_true_iff in Hq. destruct Hq as [_ Hq]. apply value_eqb_eq in Hq.
  split; [rewrite copy_optional; exact Hq|].
  split; [rewrite copy_optional; cbn [with_annotation fi_extra];
          apply extra_get_set_same|].
  reflexivity.
Qed.

(** ** The entries of the dictionary, field by field *)

Lemma loop_entry_cases :
  forall cb fields_ recursive (R : state -> state -> Prop),
    (forall s, R s s) ->
    (forall a b c, R a b -> R b c -> R a c) ->
    (forall c fs r s c' s', cb c fs r s = Some (c', s') -> R s s') ->
    forall fs s d s' n fi,
      NoDup (map fst fs) ->
      compute_optional_fields cb fields_ recursive fs s = Some (d, s') ->
      In (n, fi) fs ->
      match fi_annotation fi with
      | None => dict_get n d = None
      | Some a =>
          if negb (mem n fields_) && negb (sub_fields_requested fields_ n)
          then dict_get n d = None
          else
            exists a',
              (if recursive || sub_fields_requested fields_ n
               then exists s1 s2,
                      R s s1 /\
                      rewrite_annotation cb fields_ recursive n a s1
                        = Some (a', s2) /\
                      R s2 s'
               else a' = a) /\
              dict_get n d =
              (if mem n fields_
               then if is_model_field_info_required fi
                    then Some (Optional_ a',
                               copy_model_field_info fi optional_kwargs)
                    else None
               else Some (a', copy_model_field_info fi []))
      end.
Proof.
  intros cb fields_ recursive R Rr Rt Rcb fs s d s' n fi ND L Hin.
  destruct (loop_entry cb fields_ recursive R Rr Rt Rcb _ _ _ _ _ ND L)
    as [_ Hent].
  destruct (Hent n fi Hin) as [d1 [d2 [s1 [s2 [R1 [St [R2 [Hd1 Hg]]]]]]]].
  cbn [dict_get] in Hd1. rewrite Hg. clear Hg.
  apply field_step_cases in St.
  destruct St as [[-> [_ [X|[X1 X2]]]]|[a0 [a' [Ha0 [Hsel [Hrw Hd2]]]]]].
  - rewrite X. exact Hd1.
  - destruct (fi_annotation fi); [|exact Hd1].
    rewrite X1, X2. exact Hd1.
  - rewrite Ha0.
    assert (Hs : negb (mem n fields_) && negb (sub_fields_requested fields_ n)
                 = false).
    { destruct Hsel as [-> | ->]; [reflexivity | apply andb_false_r]. }
    rewrite Hs. exists a'. split.
    + destruct (recursive || sub_fields_requested fields_ n).
      * exists s1, s2. auto.
      * apply Hrw.
    + subst d2. destruct (mem n fields_) eqn:Em.
      * destruct (is_model_field_info_required fi);
          [apply dict_get_set_same | exact Hd1].
      * apply dict_get_set_same.
Qed.

(** A dictionary without entries for the names it may have is empty. *)
Lemma loop_empty : forall cb fields_ recursive fs s d s',
  compute_optional_fields cb fields_ recursive fs s = Some (d, s') ->
  (forall n, In n (map fst fs) -> dict_get n d = None) ->
  d = [].
Proof.
  intros cb fields_ recursive fs s d s' L H.
  destruct d as [|[k v] r]; [reflexivity|]. exfalso.
  assert (Hk : dict_get k ((k, v) :: r) <> None).
  { simpl. rewrite String.eqb_refl. discriminate. }
  destruct (loop_keys _ _ _ _ _ _ _ _ L k Hk) as [X|X].
  - now apply X.
  - apply Hk, H, X.
Qed.

(** ** Calls that need no nested derivation *)

Lemma field_step_quiet : forall cb fields_ recursive d item s,
  quiet fields_ recursive item = true ->
  exists d', field_step cb fields_ recursive d item s = Some (d', s).
Proof.
  intros cb fields_ recursive d [n fi] s Hq. unfold quiet in Hq.
  cbn [fst snd] in Hq.
  unfold field_step, get_model_field_info_annotation.
  destruct (fi_annotation fi) as [a|]; [|eexists; reflexivity].
  apply andb_true_iff in Hq. destruct Hq as [Hs Hq].
  apply negb_true_iff in Hs. rewrite Hs. rewrite orb_false_r.
  destruct (mem n fields_); cbn [negb andb]; [|eexists; reflexivity].
  destruct recursive; [discriminate|].
  unfold bind, ret.
  destruct (is_model_field_info_required fi); eexists; reflexivity.
Qed.

Lemma loop_quiet : forall cb fields_ recursive fs d s,
  forallb (quiet fields_ recursive) fs = true ->
  exists d', foldM (field_step cb fields_ recursive) fs d s = Some (d', s).
Proof.
  induction fs as [|item r IH]; intros d s H.
  - exists d. reflexivity.
  - cbn [forallb] in H. apply andb_true_iff in H. destruct H as [H1 H2].
    destruct (field_step_quiet cb fields_ recursive d item s H1) as [d1 E1].
    destruct (IH d1 s H2) as [d2 E2].
    exists d2. cbn [foldM]. unfold bind. now rewrite E1.
Qed.

(** A call on a class whose fields are all quiet returns with fuel 1. *)
Lemma create_partial_model_quiet : forall fuel base_cls fields kw s b,
  get_class s base_cls = Some b ->
  forallb (quiet (effective_fields fields b) (recursive_of kw)) (model_fields b)
    = true ->
  exists c s',
    create_partial_model (S fuel) base_cls fields kw s = Some (c, s').
Proof.
  intros fuel base_cls fields kw s b G Hq.
  rewrite create_partial_model_unfold.
  destruct (cache_get (base_cls, fields, kw) (cache s));
    [eexists; eexists; reflexivity|].
  unfold create_partial_model_body. rewrite G.
  unfold bind, compute_optional_fields.
  destruct (loop_quiet (fun c fs r => create_partial_model fuel c fs (Some r))
              _ _ _ [] s Hq) as [d L].
  rewrite L. destruct d as [|x r].
  - eexists; eexists; reflexivity.
  - unfold create_model. rewrite G. eexists; eexists; reflexivity.
Qed.

(** With no selectors and without recursion every field is quiet, the names
    of the fields having no dot. *)
Lemma quiet_no_selectors : forall b kw,
  wf_class b = true -> recursive_of kw = false ->
  forallb (quiet (effective_fields [] b) (recursive_of kw)) (model_fields b)
    = true.
Proof.
  intros b kw Hw Hr. unfold wf_class in Hw.
  apply andb_true_iff in Hw. destruct Hw as [_ Hd].
  apply forallb_forall. intros [n fi] _. unfold quiet. cbn [fst snd].
  destruct (fi_annotation fi); [|reflexivity].
  cbn [effective_fields]. rewrite (sub_fields_dotfree _ n Hd), Hr. reflexivity.
Qed.

Lemma mem_names : forall n f (fs : list (string * field_info)),
  lookup_field n fs = Some f -> mem n (map fst fs) = true.
Proof.
  intros n f fs H. apply mem_In. apply lookup_field_names. congruence.
Qed.

(** The class that a call returns when every field of the base class is
    quiet. *)
Lemma quiet_result : forall fuel base_cls fields kw s c s' b,
  reachable s ->
  create_partial_model fuel base_cls fields kw s = Some (c, s') ->
  get_class s base_cls = Some b ->
  nodupb (map fst (model_fields b)) = true ->
  forallb (quiet (effective_fields fields b) (recursive_of kw)) (model_fields b)
    = true ->
  (forall n fi,
     lookup_field n (model_fields b) = Some fi ->
     field_of s' c n =
     match quiet_override (effective_fields fields b) n fi with
     | Some (a, fi') => Some (with_annotation fi' a)
     | None => Some fi
     end) /\
  ((forall n fi, In (n, fi) (model_fields b) ->
                 quiet_override (effective_fields fields b) n fi = None) ->
   c = base_cls) /\
  exists o', get_class s' c = Some o' /\
             map fst (model_fields o') = map fst (model_fields b).
Proof.
  intros fuel base_cls fields kw s c s' b Hr Hc G ND Hq.
  destruct (create_partial_model_result _ _ _ _ _ _ _ _ Hr Hc G)
    as [f0 [s0 [d [sl [o' [R0 [G0 [L [E [Hle [Gc [Hf [Hp [Hn [Hd Hmiss]]]]]]]]]]]]]]].
  apply nodupb_NoDup in ND.
  assert (Hent : forall n fi, In (n, fi) (model_fields b) ->
            dict_get n d = quiet_override (effective_fields fields b) n fi).
  { intros n fi Hin.
    pose proof (loop_entry_cases (nested f0) (effective_fields fields b)
                  (recursive_of kw) ext ext_refl ext_trans (nested_ext f0)
                  _ _ _ _ n fi ND L Hin) as Hcase.
    rewrite forallb_forall in Hq. specialize (Hq _ Hin).
    unfold quiet in Hq. cbn [fst snd] in Hq. unfold quiet_override.
    destruct (fi_annotation fi) as [a|]; [|exact Hcase].
    apply andb_true_iff in Hq. destruct Hq as [Hs Hq].
    apply negb_true_iff in Hs. rewrite Hs in Hcase.
    rewrite orb_false_r in Hcase.
    destruct (mem n (effective_fields fields b)); cbn [negb andb] in *;
      [|exact Hcase].
    destruct (recursive_of kw); [discriminate|].
    destruct Hcase as [a' [-> Hg]]. exact Hg. }
  split; [|split].
  - intros n fi Hl. rewrite (field_of_result _ _ _ _ _ n Gc Hf), Hl.
    rewrite (Hent n fi (lookup_field_In _ _ _ Hl)).
    destruct (quiet_override (effective_fields fields b) n fi) as [[a fi']|];
      reflexivity.
  - intro Hnone. apply Hn. eapply loop_empty; [exact L|].
    intros n Hin. apply in_map_iff in Hin. destruct Hin as [[k fi] [Hk Hin]].
    cbn [fst] in Hk. subst k. rewrite (Hent n fi Hin). now apply Hnone.
  - exists o'. split; [exact Gc|]. rewrite Hf. apply names_override.
Qed.

(** ** C2: no selectors *)

(** C2, as the code has it.  A call with no selectors and without recursion
    returns a class in which every required field with an annotation has
    become optional, with [Optional] of its own annotation and the default
    [None]; a field that is optional already, or whose annotation cannot be
    resolved, is the field of the base class, with its own default. *)
Theorem C2_no_selectors :
  forall fuel base_cls kw s b,
    reachable s ->
    get_class s base_cls = Some b ->
    wf_class b = true ->
    recursive_of kw = false ->
    exists c s',
      create_partial_model (S fuel) base_cls [] kw s = Some (c, s') /\
      forall n fi,
        lookup_field n (model_fields b) = Some fi ->
        exists fi',
          field_of s' c n = Some fi' /\
          (forall a,
             fi_annotation fi = Some a ->
             is_model_field_info_required fi = true ->
             fi' = with_annotation (copy_model_field_info fi optional_kwargs)
                                   (Optional_ a) /\
             fi_annotation fi' = Some (Optional_ a) /\
             accepts_none (Optional_ a) = true /\
             fi_default fi' = PyNone /\
             is_model_field_info_required fi' = false) /\
          (is_model_field_info_required fi = false -> fi' = fi) /\
          (fi_annotation fi = None -> fi' = fi).
Proof.
  intros fuel base_cls kw s b Hr G Hw Hrec.
  pose proof (quiet_no_selectors b kw Hw Hrec) as Hq.
  destruct (create_partial_model_quiet fuel base_cls [] kw s b G Hq)
    as [c [s' Hc]].
  exists c, s'. split; [exact Hc|].
  pose proof Hw as Hw'. unfold wf_class in Hw'.
  apply andb_true_iff in Hw'. destruct Hw' as [ND _].
  destruct (quiet_result _ _ _ _ _ _ _ _ Hr Hc G ND Hq) as [Hfield _].
  intros n fi Hl. rewrite (Hfield n fi Hl).
  unfold quiet_override. cbn [effective_fields].
  rewrite (mem_names _ _ _ Hl). cbn [andb].
  destruct (fi_annotation fi) as [a|] eqn:Ea.
  - destruct (is_model_field_info_required fi) eqn:Eq.
    + eexists. split; [reflexivity|]. split; [|split; discriminate].
      intros a0 Ha0 _. inversion Ha0; subst a0.
      split; [reflexivity|]. split; [reflexivity|].
      split; [apply accepts_none_Optional|]. split; reflexivity.
    + exists fi. split; [reflexivity|]. split; [discriminate|]. auto.
  - exists fi. split; [reflexivity|]. split; [discriminate|]. auto.
Qed.

Lemma C2_no_selectors_witness :
  exists c s' fi',
    create_partial_model 1 0 [] None ex_state = Some (c, s') /\
    field_of s' c "age" = Some fi' /\
    fi_default fi' = PyNone.
Proof.
  destruct (C2_no_selectors 0 0 None ex_state ex_Something
              (reach_init _) eq_refl eq_refl eq_refl) as [c [s' [Hc Hf]]].
  destruct (Hf "age" (required_field (TPlain "int")) eq_refl)
    as [fi' [H1 [H2 _]]].
  exists c, s', fi'. split; [exact Hc|]. split; [exact H1|].
  apply (H2 (TPlain "int") eq_refl eq_refl).
Defined.

(** The claim C2 as it is stated fails on the class [Mixed]: after the call
    with no selectors the field [b] has its default 5, not [None], and the
    field [c], whose annotation cannot be resolved, is still required. *)
Lemma C2_counterexample :
  exists c s' fb fc,
    create_partial_model 1 3 [] None ex_state = Some (c, s') /\
    field_of s' c "b" = Some fb /\
    fi_default fb = PyInt 5 /\ fi_default fb <> PyNone /\
    field_of s' c "c" = Some fc /\
    is_model_field_info_required fc = true.
Proof.
  eexists. eexists. eexists. eexists.
  split; [vm_compute; reflexivity|].
  split; [vm_compute; reflexivity|].
  split; [reflexivity|]. split; [discriminate|].
  split; [vm_compute; reflexivity|]. reflexivity.
Qed.

(** ** C8: one selector *)

(** C8. In a class with the required fields [a] and [b], the call with the
    one selector [a] returns a class in which [a] admits [None] and has the
    default [None], and [b] is the field of the base class, required as
    before, with the same annotation, default and descriptor. *)
Theorem C8_selective :
  forall fuel base_cls kw s bt a b fa fb ta,
    reachable s ->
    get_class s base_cls = Some bt ->
    wf_class bt = true ->
    recursive_of kw = false ->
    lookup_field a (model_fields bt) = Some fa ->
    lookup_field b (model_fields bt) = Some fb ->
    a <> b ->
    fi_annotation fa = Some ta ->
    is_model_field_info_required fa = true ->
    is_model_field_info_required fb = true ->
    exists c s' fa',
      create_partial_model (S fuel) base_cls [a] kw s = Some (c, s') /\
      field_of s' c a = Some fa' /\
      fi_annotation fa' = Some (Optional_ ta) /\
      accepts_none (Optional_ ta) = true /\
      fi_default fa' = PyNone /\
      is_model_field_info_required fa' = false /\
      field_of s' c b = Some fb.
Proof.
  intros fuel base_cls kw s bt a b fa fb ta Hr G Hw Hrec Ha Hb Hab Hta Hqa Hqb.
  pose proof Hw as Hw'. unfold wf_class in Hw'.
  apply andb_true_iff in Hw'. destruct Hw' as [ND Hdot].
  assert (Hda : dotfree a = true).
  { rewrite forallb_forall in Hdot. apply Hdot.
    apply lookup_field_names. congruence. }
  assert (Hq : forallb (quiet (effective_fields [a] bt) (recursive_of kw))
                 (model_fields bt) = true).
  { apply forallb_forall. intros [n fi] _. unfold quiet. cbn [fst snd].
    destruct (fi_annotation fi); [|reflexivity].
    cbn [effective_fields]. rewrite Hrec.
    rewrite (sub_fields_dotfree [a] n); [reflexivity|].
    cbn [forallb]. now rewrite Hda. }
  destruct (create_partial_model_quiet fuel base_cls [a] kw s bt G Hq)
    as [c [s' Hc]].
  destruct (quiet_result _ _ _ _ _ _ _ _ Hr Hc G ND Hq) as [Hfield _].
  exists c, s', (with_annotation (copy_model_field_info fa optional_kwargs)
                   (Optional_ ta)).
  split; [exact Hc|]. split.
  { rewrite (Hfield a fa Ha). unfold quiet_override.
    cbn [effective_fields mem existsb]. rewrite String.eqb_refl, Hta, Hqa.
    reflexivity. }
  split; [reflexivity|]. split; [apply accepts_none_Optional|].
  split; [reflexivity|]. split; [reflexivity|].
  rewrite (Hfield b fb Hb). unfold quiet_override.
  cbn [effective_fields mem existsb].
  assert (E : String.eqb b a = false) by (apply String.eqb_neq; congruence).
  rewrite E. cbn [orb andb]. now destruct (fi_annotation fb).
Qed.

Lemma C8_selective_witness :
  exists c s' fa',
    create_partial_model 1 0 ["age"] None ex_state = Some (c, s') /\
    field_of s' c "age" = Some fa' /\
    fi_default fa' = PyNone /\
    field_of s' c "name" = Some (required_field (TPlain "str")).
Proof.
  destruct (C8_selective 0 0 None ex_state ex_Something "age" "name"
              (required_field (TPlain "int")) (required_field (TPlain "str"))
              (TPlain "int") (reach_init _) eq_refl eq_refl eq_refl eq_refl
              eq_refl)
    as [c [s' [fa' [H1 [H2 [_ [_ [H3 [_ H4]]]]]]]]];
    try reflexivity; try discriminate.
  exists c, s', fa'. auto.
Defined.

(** ** C10: deriving from a class that is optional already *)

Lemma all_optional_no_override : forall fs fields_ n fi,
  all_optional fs = true -> In (n, fi) fs ->
  quiet_override fields_ n fi = None.
Proof.
  intros fs fields_ n fi H Hin. unfold all_optional in H.
  rewrite forallb_forall in H. specialize (H _ Hin). cbn [snd] in H.
  unfold quiet_override. destruct (fi_annotation fi); [|reflexivity].
  apply negb_true_iff in H. rewrite H. now rewrite andb_false_r.
Qed.

(** C10. On a class whose fields are all optional, the call with no
    selectors and without recursion emits no override and returns the class
    itself; and the class that such a call returns on any base class is
    returned unchanged by the same call on it: deriving twice gives the
    object that deriving once gives. *)
Theorem C10_derive_optional_is_identity :
  forall fuel kw s,
    reachable s ->
    recursive_of kw = false ->
    (forall p b,
       get_class s p = Some b -> wf_class b = true ->
       all_optional (model_fields b) = true ->
       exists s', create_partial_model (S fuel) p [] kw s = Some (p, s')) /\
    (forall t b,
       get_class s t = Some b -> wf_class b = true ->
       exists c s1 s2,
         create_partial_model (S fuel) t [] kw s = Some (c, s1) /\
         create_partial_model (S fuel) c [] kw s1 = Some (c, s2)).
Proof.
  intros fuel kw s Hr Hrec.
  assert (A : forall s p b,
    reachable s ->
    get_class s p = Some b -> wf_class b = true ->
    all_optional (model_fields b) = true ->
    exists s', create_partial_model (S fuel) p [] kw s = Some (p, s')).
  { clear s Hr. intros s p b Hr G Hw Hopt.
    pose proof (quiet_no_selectors b kw Hw Hrec) as Hq.
    destruct (create_partial_model_quiet fuel p [] kw s b G Hq) as [c [s' Hc]].
    pose proof Hw as Hw'. unfold wf_class in Hw'.
    apply andb_true_iff in Hw'. destruct Hw' as [ND _].
    destruct (quiet_result _ _ _ _ _ _ _ _ Hr Hc G ND Hq) as [_ [Hsame _]].
    assert (c = p).
    { apply Hsame. intros n fi Hin.
      eapply all_optional_no_override; eassumption. }
    subst c. exists s'. exact Hc. }
  split; [intros p b; now apply A|].
  intros t b G Hw.
  pose proof (quiet_no_selectors b kw Hw Hrec) as Hq.
  destruct (create_partial_model_quiet fuel t [] kw s b G Hq) as [c [s1 Hc]].
  pose proof Hw as Hw'. unfold wf_class in Hw'.
  apply andb_true_iff in Hw'. destruct Hw' as [ND Hdot].
  destruct (quiet_result _ _ _ _ _ _ _ _ Hr Hc G ND Hq)
    as [Hfield [_ [o' [Gc Hnames]]]].
  destruct (A s1 c o') as [s2 Hc2].
  - eapply reach_call; eassumption.
  - exact Gc.
  - unfold wf_class. rewrite Hnames, ND, Hdot. reflexivity.
  - unfold all_optional. apply forallb_forall. intros [n f'] Hin. cbn [snd].
    assert (NDo : NoDup (map fst (model_fields o'))).
    { rewrite Hnames. now apply nodupb_NoDup. }
    pose proof (In_lookup_field _ _ _ NDo Hin) as Hl'.
    assert (Hn : In n (map fst (model_fields b))).
    { rewrite <- Hnames. apply in_map_iff. exists (n, f'). auto. }
    apply lookup_field_names in Hn.
    destruct (lookup_field n (model_fields b)) as [fi|] eqn:Hl; [|congruence].
    pose proof (Hfield n fi Hl) as Hfo. unfold field_of in Hfo.
    rewrite Gc, Hl' in Hfo. unfold quiet_override in Hfo.
    destruct (fi_annotation fi) as [a|] eqn:Ea.
    + destruct (mem n (effective_fields [] b) &&
                is_model_field_info_required fi) eqn:Em.
      * inversion Hfo; subst f'. reflexivity.
      * inversion Hfo; subst f'. rewrite Ea.
        cbn [effective_fields] in Em. rewrite (mem_names _ _ _ Hl) in Em.
        cbn [andb] in Em. now rewrite Em.
    + inversion Hfo; subst f'. now rewrite Ea.
  - exists c, s1, s2. split; assumption.
Qed.

Lemma C10_derive_optional_is_identity_witness :
  exists c s1 s2,
    create_partial_model 1 0 [] None ex_state = Some (c, s1) /\
    create_partial_model 1 c [] None s1 = Some (c, s2).
Proof.
  destruct (C10_derive_optional_is_identity 0 None ex_state (reach_init _)
              eq_refl) as [_ B].
  apply (B 0 ex_Something eq_refl eq_refl).
Defined.

(** ** C6: selectors that match nothing *)

Lemma unmatched_mem : forall names sel n,
  unmatched names sel = true -> In n names ->
  String.eqb n sel = false /\ startswith (n ++ ".") sel = false.
Proof.
  intros names sel n H Hin. unfold unmatched in H.
  rewrite forallb_forall in H. specialize (H n Hin).
  apply andb_true_iff in H. destruct H as [H1 H2].
  now rewrite negb_true_iff in H1, H2.
Qed.

Lemma unmatched_quiet : forall names sels n,
  forallb (unmatched names) sels = true -> In n names ->
  mem n sels = false /\ sub_fields_requested sels n = false.
Proof.
  intros names sels n H Hin. unfold mem, sub_fields_requested.
  induction sels as [|x r IH]; [split; reflexivity|].
  cbn [forallb] in H. apply andb_true_iff in H. destruct H as [H1 H2].
  destruct (unmatched_mem _ _ _ H1 Hin) as [E1 E2].
  destruct (IH H2) as [I1 I2].
  cbn [existsb]. now rewrite E1, E2, I1, I2.
Qed.

Section Congruence.

Variable cb : cls -> list string -> bool -> M cls.
Variables f1 f2 : list string.
Variable recursive : bool.
Variable n : string.
Hypothesis same_mem : mem n f1 = mem n f2.
Hypothesis same_sub : sub_fields_requested f1 n = sub_fields_requested f2 n.
Hypothesis same_children : children_fields f1 n = children_fields f2 n.

Lemma arg_congr : forall a s,
  _partial_annotation_arg cb f1 recursive n a s =
  _partial_annotation_arg cb f2 recursive n a s.
Proof.
  intros a s. unfold _partial_annotation_arg. now rewrite same_children.
Qed.

Lemma mapM_congr : forall args s,
  mapM (_partial_annotation_arg cb f1 recursive n) args s =
  mapM (_partial_annotation_arg cb f2 recursive n) args s.
Proof.
  induction args as [|a r IH]; intro s; [reflexivity|].
  cbn [mapM]. unfold bind. rewrite arg_congr.
  destruct (_partial_annotation_arg cb f2 recursive n a s) as [[a' s1]|];
    [|reflexivity].
  now rewrite IH.
Qed.

Lemma rewrite_congr : forall a s,
  rewrite_annotation cb f1 recursive n a s =
  rewrite_annotation cb f2 recursive n a s.
Proof.
  intros a s. unfold rewrite_annotation.
  destruct (rebuilt_origin (get_origin a)); [|apply arg_congr].
  destruct (get_origin a); [|reflexivity].
  unfold bind. now rewrite mapM_congr.
Qed.

Lemma field_step_congr : forall d fi s,
  field_step cb f1 recursive d (n, fi) s =
  field_step cb f2 recursive d (n, fi) s.
Proof.
  intros d fi s. unfold field_step. rewrite same_mem, same_sub.
  destruct (get_model_field_info_annotation fi) as [a|]; [|reflexivity].
  destruct (negb (mem n f2) && negb (sub_fields_requested f2 n));
    [reflexivity|].
  unfold bind.
  destruct (recursive || sub_fields_requested f2 n); [|reflexivity].
  now rewrite rewrite_congr.
Qed.

End Congruence.

Lemma foldM_congr : forall (A B : Type) (f g : B -> A -> M B) xs,
  (forall x, In x xs -> forall b s, f b x s = g b x s) ->
  forall b s, foldM f xs b s = foldM g xs b s.
Proof.
  intros A B f g xs. induction xs as [|x r IH]; intros H b s; [reflexivity|].
  cbn [foldM]. unfold bind. rewrite (H x (or_introl eq_refl)).
  destruct (g b x s) as [[b' s']|]; [|reflexivity].
  apply IH. intros y Hy. apply H. now right.
Qed.

(** Leaving an unmatched selector out changes nothing for the fields. *)
Lemma unmatched_dropped : forall names s1 bad s2 n,
  unmatched names bad = true -> In n names ->
  mem n (s1 ++ bad :: s2) = mem n (s1 ++ s2) /\
  sub_fields_requested (s1 ++ bad :: s2) n = sub_fields_requested (s1 ++ s2) n /\
  children_fields (s1 ++ bad :: s2) n = children_fields (s1 ++ s2) n.
Proof.
  intros names s1 bad s2 n H Hin.
  destruct (unmatched_mem _ _ _ H Hin) as [E1 E2].
  unfold mem, sub_fields_requested, children_fields.
  rewrite !existsb_app, !filter_app. cbn [existsb filter].
  rewrite E1, E2. cbn [orb]. auto.
Qed.

(** C6, as the code has it.  A selector that is not the name of a field of
    the base class and does not begin with the name of a field followed by a
    dot is ignored.  A call whose selectors are all of this kind returns the
    base class itself, with fuel 1: nothing is overridden, nothing is
    derived below and no error is raised.  And among other selectors such a
    selector changes nothing: the loop computes the overrides it computes
    without it. *)
Theorem C6_unmatched_ignored :
  forall fuel base_cls kw s b,
    reachable s ->
    get_class s base_cls = Some b ->
    wf_class b = true ->
    (forall fields,
       fields <> [] ->
       forallb (unmatched (map fst (model_fields b))) fields = true ->
       exists s',
         create_partial_model (S fuel) base_cls fields kw s
           = Some (base_cls, s')) /\
    (forall cb s1 bad s2 st,
       s1 ++ s2 <> [] ->
       unmatched (map fst (model_fields b)) bad = true ->
       compute_optional_fields cb (effective_fields (s1 ++ bad :: s2) b)
         (recursive_of kw) (model_fields b) st =
       compute_optional_fields cb (effective_fields (s1 ++ s2) b)
         (recursive_of kw) (model_fields b) st).
Proof.
  intros fuel base_cls kw s b Hr G Hw.
  pose proof Hw as Hw'. unfold wf_class in Hw'.
  apply andb_true_iff in Hw'. destruct Hw' as [ND _].
  split.
  - intros fields Hne Hun.
    assert (Heff : effective_fields fields b = fields).
    { destruct fields; [contradiction | reflexivity]. }
    assert (Hq : forallb (quiet (effective_fields fields b) (recursive_of kw))
                   (model_fields b) = true).
    { rewrite Heff. apply forallb_forall. intros [n fi] Hin.
      unfold quiet. cbn [fst snd].
      destruct (fi_annotation fi); [|reflexivity].
      destruct (unmatched_quiet _ _ n Hun) as [E1 E2].
      { apply in_map_iff. exists (n, fi). auto. }
      rewrite E1, E2. cbn [negb andb]. apply orb_true_r. }
    destruct (create_partial_model_quiet fuel base_cls fields kw s b G Hq)
      as [c [s' Hc]].
    destruct (quiet_result _ _ _ _ _ _ _ _ Hr Hc G ND Hq) as [_ [Hsame _]].
    assert (c = base_cls).
    { apply Hsame. intros n fi Hin. rewrite Heff.
      destruct (unmatched_quiet _ _ n Hun) as [E1 _].
      { apply in_map_iff. exists (n, fi). auto. }
      unfold quiet_override. rewrite E1. cbn [andb].
      now destruct (fi_annotation fi). }
    subst c. exists s'. exact Hc.
  - intros cb s1 bad s2 st Hne Hun.
    assert (E1 : effective_fields (s1 ++ bad :: s2) b = s1 ++ bad :: s2).
    { destruct s1; reflexivity. }
    assert (E2 : effective_fields (s1 ++ s2) b = s1 ++ s2).
    { destruct (s1 ++ s2); [contradiction | reflexivity]. }
    rewrite E1, E2. unfold compute_optional_fields.
    apply foldM_congr. intros [n fi] Hin d st'.
    destruct (unmatched_dropped _ s1 bad s2 n Hun) as [X1 [X2 X3]].
    { apply in_map_iff. exists (n, fi). auto. }
    now apply field_step_congr.
Qed.

Lemma C6_unmatched_ignored_witness :
  exists s',
    create_partial_model 1 2 ["nonexistent"] None ex_state = Some (2, s').
Proof.
  destruct (C6_unmatched_ignored 0 2 None ex_state ex_Parent (reach_init _)
              eq_refl eq_refl) as [A _].
  apply (A ["nonexistent"]); [discriminate | reflexivity].
Defined.

(** The claim C6 as it is stated fails for a path below an existing field:
    for the selector [child.nonexistent] the class [Child] is derived with
    the selector [nonexistent], an override is emitted for [child], and the
    call returns a new class and not [Parent]. *)
Lemma C6_counterexample :
  exists c s',
    create_partial_model 2 2 ["child.nonexistent"] None ex_state = Some (c, s') /\
    c <> 2 /\
    List.length (heap s') = S (List.length (heap ex_state)) /\
    cache_get (1, ["nonexistent"], Some false) (cache s') = Some 1 /\
    exists d st,
      compute_optional_fields (nested 1) ["child.nonexistent"] false
        (model_fields ex_Parent) ex_state = Some (d, st) /\
      dict_get "child" d = Some (TModel 1, required_field (TModel 1)).
Proof.
  eexists. eexists.
  split; [vm_compute; reflexivity|].
  split; [discriminate|].
  split; [reflexivity|].
  split; [reflexivity|].
  eexists. eexists. split; [vm_compute; reflexivity | reflexivity].
Qed.

(** ** Nested derivations *)

Lemma derived_by_later : forall base_cls fields kw c s s',
  derived_by base_cls fields kw c s -> heap_le s s' ->
  derived_by base_cls fields kw c s'.
Proof.
  intros base_cls fields kw c s s' [f0 [s0 [s1 [H1 [H2 [H3 H4]]]]]] Hle.
  exists f0, s0, s1. split; [exact H1|]. split; [exact H2|].
  split; [exact H3|]. eapply heap_le_trans; eassumption.
Qed.

Lemma proceeds_refl : forall s, proceeds s s.
Proof. intro s. split; [auto | apply ext_refl]. Qed.

Lemma proceeds_trans : forall a b c,
  proceeds a b -> proceeds b c -> proceeds a c.
Proof.
  intros a b c [H1 E1] [H2 E2]. split; [auto|].
  eapply ext_trans; eassumption.
Qed.

Lemma nested_proceeds : forall fuel c fs r s c' s',
  nested fuel c fs r s = Some (c', s') -> proceeds s s'.
Proof.
  intros fuel c fs r s c' s' H. split.
  - intro Hr. eapply reach_call; eassumption.
  - eapply create_partial_model_ext; eassumption.
Qed.

(** A call with no selectors returns a class whose fields with an annotation
    are all optional, with or without recursion. *)
Lemma no_selectors_all_optional : forall fuel base_cls kw s c s' b,
  reachable s ->
  create_partial_model fuel base_cls [] kw s = Some (c, s') ->
  get_class s base_cls = Some b ->
  nodupb (map fst (model_fields b)) = true ->
  exists o', get_class s' c = Some o' /\ all_optional (model_fields o') = true.
Proof.
  intros fuel base_cls kw s c s' b Hr Hc G ND.
  destruct (create_partial_model_result _ _ _ _ _ _ _ _ Hr Hc G)
    as [f0 [s0 [d [sl [o' [R0 [G0 [L [E [Hle [Gc [Hf [Hp [Hn [Hd Hmiss]]]]]]]]]]]]]]].
  apply nodupb_NoDup in ND.
  exists o'. split; [exact Gc|]. rewrite Hf.
  unfold all_optional. apply forallb_forall. intros item Hin.
  apply in_map_iff in Hin. destruct Hin as [[n fi] [<- Hin]].
  pose proof (loop_entry_cases (nested f0) (effective_fields [] b)
                (recursive_of kw) ext ext_refl ext_trans (nested_ext f0)
                _ _ _ _ n fi ND L Hin) as Hcase.
  assert (Hm : mem n (effective_fields [] b) = true).
  { cbn [effective_fields]. apply mem_In. apply in_map_iff.
    exists (n, fi). auto. }
  unfold apply_override. cbn [fst].
  destruct (fi_annotation fi) as [a|] eqn:Ea.
  - rewrite Hm in Hcase. cbn [negb andb] in Hcase.
    destruct Hcase as [a' [_ Hg]]. rewrite Hg.
    destruct (is_model_field_info_required fi) eqn:Eq.
    + reflexivity.
    + cbn [snd]. now rewrite Ea, Eq.
  - rewrite Hcase. cbn [snd]. now rewrite Ea.
Qed.

(** The loop returns when each turn returns from the states of a set that
    the turns do not leave. *)
Lemma loop_total_inv :
  forall cb fields_ recursive (I : state -> Prop) fs,
    (forall item, In item fs ->
       forall d s, I s ->
         exists d' s',
           field_step cb fields_ recursive d item s = Some (d', s') /\ I s') ->
    forall d s, I s ->
      exists d' s',
        foldM (field_step cb fields_ recursive) fs d s = Some (d', s') /\ I s'.
Proof.
  intros cb fields_ recursive I fs. induction fs as [|item r IH]; intros H d s Hi.
  - exists d, s. split; [reflexivity | exact Hi].
  - destruct (H item (or_introl eq_refl) d s Hi) as [d1 [s1 [E1 I1]]].
    destruct (IH (fun x Hx => H x (or_intror Hx)) d1 s1 I1) as [d2 [s2 [E2 I2]]].
    exists d2, s2. cbn [foldM]. unfold bind. rewrite E1. auto.
Qed.

(** The turn of the loop on a field that is reached by a path only and whose
    annotation is a derivable model. *)
Lemma field_step_model : forall cb fields_ recursive d n fi u bu s u' s',
  fi_annotation fi = Some (TModel u) ->
  mem n fields_ = false ->
  sub_fields_requested fields_ n = true ->
  get_class s u = Some bu -> cls_partial bu = true ->
  cb u (children_fields fields_ n) recursive s = Some (u', s') ->
  field_step cb fields_ recursive d (n, fi) s =
  Some (dict_set n (TModel u', copy_model_field_info fi []) d, s').
Proof.
  intros cb fields_ recursive d n fi u bu s u' s' Ha Hm Hs G Hp Hc.
  unfold field_step, get_model_field_info_annotation. rewrite Ha, Hm, Hs.
  cbn [negb andb]. rewrite orb_true_r.
  unfold bind, rewrite_annotation. cbn [get_origin rebuilt_origin].
  unfold _partial_annotation_arg. rewrite G, Hp. unfold bind, ret.
  now rewrite Hc.
Qed.

(** What the rewriting of the annotation of a derivable model returns. *)
Lemma rewrite_model_inv : forall cb fields_ recursive n u s a' s',
  rewrite_annotation cb fields_ recursive n (TModel u) s = Some (a', s') ->
  exists bu,
    get_class s u = Some bu /\
    (cls_partial bu = true ->
     exists u', cb u (children_fields fields_ n) recursive s = Some (u', s') /\
                a' = TModel u').
Proof.
  intros cb fields_ recursive n u s a' s' H.
  unfold rewrite_annotation in H. cbn [get_origin rebuilt_origin] in H.
  unfold _partial_annotation_arg in H.
  destruct (get_class s u) as [bu|]; [|discriminate].
  exists bu. split; [reflexivity|]. intro Hp. rewrite Hp in H.
  unfold bind, ret in H.
  destruct (cb u (children_fields fields_ n) recursive s) as [[u' s1]|];
    [|discriminate].
  inversion H; subst. exists u'. auto.
Qed.

Lemma wildcard_selector : forall n,
  dotfree n = true ->
  mem n [(n ++ ".*")%string] = false /\
  sub_fields_requested [(n ++ ".*")%string] n = true /\
  children_fields [(n ++ ".*")%string] n = [].
Proof.
  intros n Hn.
  assert (E : (n ++ ".*" = (n ++ ".") ++ "*")%string).
  { now rewrite append_assoc. }
  split; [|split].
  - unfold mem. cbn [existsb]. rewrite orb_false_r.
    apply String.eqb_neq. intro X.
    pose proof (dotfree_append_dot n "*") as Y.
    change (n ++ String "." "*")%string with (n ++ ".*")%string in Y.
    rewrite <- X in Y. congruence.
  - unfold sub_fields_requested, startswith. cbn [existsb].
    rewrite E, prefix_append. reflexivity.
  - unfold children_fields, startswith. cbn [filter].
    rewrite E, prefix_append. cbn [map]. rewrite removeprefix_append.
    reflexivity.
Qed.

Lemma wildcard_other : forall n m,
  dotfree n = true -> dotfree m = true -> m <> n ->
  mem m [(n ++ ".*")%string] = false /\
  sub_fields_requested [(n ++ ".*")%string] m = false.
Proof.
  intros n m Hn Hm Hne. split.
  - unfold mem. cbn [existsb]. rewrite orb_false_r.
    apply String.eqb_neq. intro X.
    pose proof (dotfree_append_dot n "*") as Y.
    change (n ++ String "." "*")%string with (n ++ ".*")%string in Y.
    rewrite <- X in Y. congruence.
  - unfold sub_fields_requested, startswith. cbn [existsb].
    rewrite orb_false_r.
    destruct (String.prefix (m ++ ".") (n ++ ".*")) eqn:E; [|reflexivity].
    exfalso. apply Hne. apply (prefix_dot_same m n "*" Hm Hn). exact E.
Qed.

(** ** C7: the wildcard below a field *)

(** C7. For a class with a field [n] whose annotation is a derivable model
    [u], the call with the one selector [n.*] returns a class in which the
    annotation of [n] is the class [u'] that deriving [u] with no selectors
    gives: [u'] is the result of a run of the body on [u] with no selectors,
    all its fields with an annotation are optional, and when the call was
    not memoised before, [u.as_partial()] returns this very object.  The
    field [n] keeps its descriptor, so it is required exactly when it was,
    and every other field is the field of the base class. *)
Theorem C7_nested_wildcard :
  forall fuel base_cls u kw s bt bu n fi,
    reachable s ->
    get_class s base_cls = Some bt ->
    wf_class bt = true ->
    lookup_field n (model_fields bt) = Some fi ->
    fi_annotation fi = Some (TModel u) ->
    get_class s u = Some bu ->
    cls_partial bu = true ->
    wf_class bu = true ->
    recursive_of kw = false ->
    exists c s' u' ou,
      create_partial_model (S (S fuel)) base_cls [(n ++ ".*")%string] kw s
        = Some (c, s') /\
      field_of s' c n = Some (with_annotation fi (TModel u')) /\
      is_model_field_info_required (with_annotation fi (TModel u'))
        = is_model_field_info_required fi /\
      derived_by u [] (Some false) u' s' /\
      get_class s' u' = Some ou /\
      all_optional (model_fields ou) = true /\
      (cache_get (base_cls, [(n ++ ".*")%string], kw) (cache s) = None ->
       forall fuel', as_partial fuel' u [] false s' = Some (u', s')) /\
      (forall m f, m <> n -> lookup_field m (model_fields bt) = Some f ->
                   field_of s' c m = Some f).
Proof.
  intros fuel base_cls u kw s bt bu n fi Hr G Hw Hl Ha Gu Hp Hwu Hrec.
  pose proof Hw as Hw'. unfold wf_class in Hw'.
  apply andb_true_iff in Hw'. destruct Hw' as [ND Hdot].
  rewrite forallb_forall in Hdot.
  assert (Hn : dotfree n = true).
  { apply Hdot. apply lookup_field_names. congruence. }
  destruct (wildcard_selector n Hn) as [Wm [Ws Wc]].
  set (sel := [(n ++ ".*")%string]) in *.
  (* the call returns *)
  assert (Htot : exists c s',
    create_partial_model (S (S fuel)) base_cls sel kw s = Some (c, s')).
  { rewrite create_partial_model_unfold.
    destruct (cache_get (base_cls, sel, kw) (cache s));
      [eexists; eexists; reflexivity|].
    unfold create_partial_model_body. rewrite G.
    unfold bind, compute_optional_fields.
    destruct (loop_total_inv
                (fun c fs r => create_partial_model (S fuel) c fs (Some r))
                (effective_fields sel bt) (recursive_of kw)
                (fun z => heap_le s z) (model_fields bt))
      with (d := @nil (string * override)) (s := s) as [d [sl [L Il]]].
    - intros [m f] Hin d z Iz.
      destruct (String.eqb m n) eqn:Emn.
      + apply String.eqb_eq in Emn. subst m.
        assert (f = fi).
        { pose proof (In_lookup_field _ _ _ (nodupb_NoDup _ ND) Hin) as X.
          congruence. }
        subst f.
        destruct (create_partial_model_quiet fuel u [] (Some false) z bu)
          as [u' [z' Hu]].
        * eapply heap_le_get_class; eassumption.
        * now apply quiet_no_selectors.
        * exists (dict_set n (TModel u', copy_model_field_info fi []) d), z'.
          split.
          -- rewrite Hrec.
             apply (field_step_model _ _ _ _ _ _ u bu); auto.
             ++ eapply heap_le_get_class; eassumption.
             ++ cbn [effective_fields sel]. fold sel. rewrite Wc. exact Hu.
          -- eapply heap_le_trans; [exact Iz|].
             apply (create_partial_model_ext _ _ _ _ _ _ _ Hu).
      + apply String.eqb_neq in Emn.
        destruct (field_step_quiet
                    (fun c fs r => create_partial_model (S fuel) c fs (Some r))
                    (effective_fields sel bt) (recursive_of kw) d (m, f) z)
          as [d' E].
        * unfold quiet. cbn [fst snd]. destruct (fi_annotation f); [|reflexivity].
          rewrite Hrec.
          destruct (wildcard_other n m Hn) as [_ X]; [|exact Emn|].
          { apply Hdot. apply in_map_iff. exists (m, f). auto. }
          fold sel in X. cbn [effective_fields sel]. fold sel. now rewrite X.
        * exists d', z. auto.
    - apply heap_le_refl.
    - rewrite L. destruct d as [|x r].
      + eexists; eexists; reflexivity.
      + unfold create_model.
        rewrite (heap_le_get_class _ _ _ _ Il G). eexists; eexists; reflexivity. }
  destruct Htot as [c [s' Hc]].
  (* the class it returns *)
  destruct (create_partial_model_result _ _ _ _ _ _ _ _ Hr Hc G)
    as [f0 [s0 [d [sl [o' [R0 [G0 [L [E [Hle [Gc [Hf [_ [_ [_ Hmiss]]]]]]]]]]]]]]].
  pose proof (nodupb_NoDup _ ND) as ND'.
  pose proof (loop_entry_cases (nested f0) (effective_fields sel bt)
                (recursive_of kw) proceeds proceeds_refl proceeds_trans
                (nested_proceeds f0) _ _ _ _ n fi ND' L
                (lookup_field_In _ _ _ Hl)) as Hcase.
  rewrite Ha in Hcase. cbn [effective_fields sel] in Hcase. fold sel in Hcase.
  rewrite Wm, Ws in Hcase. cbn [negb andb] in Hcase.
  rewrite orb_true_r in Hcase.
  destruct Hcase as [a' [[s1 [s2 [P1 [Hrw P2]]]] Hg]].
  destruct (rewrite_model_inv _ _ _ _ _ _ _ _ Hrw) as [bu1 [Gu1 Hn1]].
  pose proof (create_partial_model_ext _ _ _ _ _ _ _ Hc) as [Hss' _].
  assert (H12 : ext s1 s2).
  { eapply (rewrite_preserved (nested f0) _ _ ext ext_refl ext_trans
              (nested_ext f0)). exact Hrw. }
  assert (H2' : heap_le s2 s').
  { eapply heap_le_trans; [apply P2 | exact Hle]. }
  assert (bu1 = bu).
  { assert (X : get_class s' u = Some bu1).
    { eapply heap_le_get_class; [|exact Gu1].
      eapply heap_le_trans; [apply H12 | exact H2']. }
    rewrite (heap_le_get_class _ _ _ _ Hss' Gu) in X. congruence. }
  subst bu1. destruct (Hn1 Hp) as [u' [Hu ->]]. clear Hn1.
  rewrite Wc, Hrec in Hu. unfold nested in Hu.
  assert (R1 : reachable s1) by (apply P1; exact R0).
  pose proof Hwu as Hwu'. unfold wf_class in Hwu'.
  apply andb_true_iff in Hwu'. destruct Hwu' as [NDu _].
  destruct (no_selectors_all_optional _ _ _ _ _ _ _ R1 Hu Gu1 NDu)
    as [ou [Gou Hopt]].
  exists c, s', u', ou.
  split; [exact Hc|].
  split.
  { rewrite (field_of_result _ _ _ _ _ n Gc Hf), Hl, Hg. reflexivity. }
  split; [reflexivity|].
  split.
  { eapply derived_by_later; [|exact H2'].
    eapply create_partial_model_derived; eassumption. }
  split; [eapply heap_le_get_class; eassumption|].
  split; [exact Hopt|].
  split.
  { intros Hnone fuel'. destruct (Hmiss Hnone) as [_ Hkeep].
    unfold as_partial. apply create_partial_model_hit.
    apply Hkeep; [intro X; inversion X|].
    apply P2. eapply create_partial_model_cached; eassumption. }
  intros m f Hmn Hlm.
  pose proof (loop_entry_cases (nested f0) (effective_fields sel bt)
                (recursive_of kw) proceeds proceeds_refl proceeds_trans
                (nested_proceeds f0) _ _ _ _ m f ND' L
                (lookup_field_In _ _ _ Hlm)) as Hcm.
  assert (Hdm : dict_get m d = None).
  { destruct (fi_annotation f); [|exact Hcm].
    destruct (wildcard_other n m Hn) as [X1 X2]; [|exact Hmn|].
    { apply Hdot. apply lookup_field_names. congruence. }
    fold sel in X1, X2.
    cbn [effective_fields sel] in Hcm. fold sel in Hcm.
    rewrite X1, X2 in Hcm. exact Hcm. }
  rewrite (field_of_result _ _ _ _ _ m Gc Hf), Hlm, Hdm. reflexivity.
Qed.

Lemma C7_nested_wildcard_witness :
  exists c s' u',
    create_partial_model 2 2 ["child.*"] None ex_state = Some (c, s') /\
    field_of s' c "child"
      = Some (with_annotation (required_field (TModel 1)) (TModel u')) /\
    as_partial 0 1 [] false s' = Some (u', s').
Proof.
  destruct (C7_nested_wildcard 0 2 1 None ex_state ex_Parent ex_Child "child"
              (required_field (TModel 1)) (reach_init _) eq_refl eq_refl
              eq_refl eq_refl eq_refl eq_refl eq_refl eq_refl)
    as [c [s' [u' [ou [H1 [H2 [_ [_ [_ [_ [H3 _]]]]]]]]]]].
  exists c, s', u'. split; [exact H1|]. split; [exact H2|].
  apply H3. reflexivity.
Defined.

(** ** C3: recursion with no selectors *)

Lemma children_dotfree : forall fs n,
  forallb dotfree fs = true -> children_fields fs n = [].
Proof.
  intros fs n H. unfold children_fields.
  assert (E : filter (startswith (n ++ ".")) fs = []).
  { apply filter_none. intros x Hx. rewrite forallb_forall in H.
    unfold startswith. apply prefix_dot_dotfree. now apply H. }
  rewrite E. reflexivity.
Qed.

(** A class of bounded nesting has no field whose annotation is the class
    itself, when it is derivable. *)
Lemma bounded_not_self : forall h m c o n fi,
  bounded h m c = true ->
  nth_error h c = Some o -> cls_partial o = true ->
  In (n, fi) (model_fields o) -> fi_annotation fi = Some (TModel c) -> False.
Proof.
  intros h m c o n fi. induction m as [|m IH]; intros Hb Hn Hp Hin Ha;
    [discriminate|].
  rewrite bounded_unfold, Hn in Hb. rewrite forallb_forall in Hb.
  specialize (Hb _ Hin). unfold ok_field in Hb. cbn [snd] in Hb.
  rewrite Ha in Hb. cbn [targets forallb] in Hb.
  unfold ok_target in Hb. rewrite Hn, Hp in Hb. cbn [negb orb] in Hb.
  rewrite andb_true_r in Hb. now apply IH.
Qed.

(** C3, as the code has it.  With no selectors every field is selected, so
    in a recursive call a required field [n] whose annotation is a derivable
    model [u] becomes optional like any required field: its annotation
    becomes [Optional[u']] and its default [None], where [u'] is the class
    that deriving [u] recursively with no selectors gives, a class whose
    fields with an annotation are all optional; when the call was not
    memoised before, [u.as_partial(recursive=True)] returns this very
    object. *)
Theorem C3_recursive_no_selectors :
  forall fuel base_cls u s bt bu n fi,
    reachable s ->
    bounded (heap s) fuel base_cls = true ->
    get_class s base_cls = Some bt ->
    wf_class bt = true ->
    lookup_field n (model_fields bt) = Some fi ->
    fi_annotation fi = Some (TModel u) ->
    is_model_field_info_required fi = true ->
    get_class s u = Some bu ->
    cls_partial bu = true ->
    wf_class bu = true ->
    exists c s' u' ou fi',
      create_partial_model fuel base_cls [] (Some true) s = Some (c, s') /\
      field_of s' c n = Some fi' /\
      fi' = with_annotation (copy_model_field_info fi optional_kwargs)
                            (Optional_ (TModel u')) /\
      fi_annotation fi' = Some (Optional_ (TModel u')) /\
      fi_default fi' = PyNone /\
      is_model_field_info_required fi' = false /\
      derived_by u [] (Some true) u' s' /\
      get_class s' u' = Some ou /\
      all_optional (model_fields ou) = true /\
      (cache_get (base_cls, [], Some true) (cache s) = None ->
       forall fuel', as_partial fuel' u [] true s' = Some (u', s')).
Proof.
  intros fuel base_cls u s bt bu n fi Hr Hb G Hw Hl Ha Hq Gu Hp Hwu.
  pose proof Hw as Hw'. unfold wf_class in Hw'.
  apply andb_true_iff in Hw'. destruct Hw' as [ND Hdot].
  destruct (create_partial_model_total fuel base_cls [] (Some true) s Hb)
    as [c [s' Hc]].
  destruct (create_partial_model_result _ _ _ _ _ _ _ _ Hr Hc G)
    as [f0 [s0 [d [sl [o' [R0 [G0 [L [E [Hle [Gc [Hf [_ [_ [_ Hmiss]]]]]]]]]]]]]]].
  pose proof (nodupb_NoDup _ ND) as ND'.
  pose proof (loop_entry_cases (nested f0) (effective_fields [] bt)
                (recursive_of (Some true)) proceeds proceeds_refl
                proceeds_trans (nested_proceeds f0) _ _ _ _ n fi ND' L
                (lookup_field_In _ _ _ Hl)) as Hcase.
  rewrite Ha in Hcase. cbn [effective_fields recursive_of] in Hcase.
  rewrite (mem_names _ _ _ Hl), Hq in Hcase. cbn [negb andb orb] in Hcase.
  destruct Hcase as [a' [[s1 [s2 [P1 [Hrw P2]]]] Hg]].
  destruct (rewrite_model_inv _ _ _ _ _ _ _ _ Hrw) as [bu1 [Gu1 Hn1]].
  pose proof (create_partial_model_ext _ _ _ _ _ _ _ Hc) as [Hss' _].
  assert (H12 : ext s1 s2).
  { eapply (rewrite_preserved (nested f0) _ _ ext ext_refl ext_trans
              (nested_ext f0)). exact Hrw. }
  assert (H2' : heap_le s2 s').
  { eapply heap_le_trans; [apply P2 | exact Hle]. }
  assert (bu1 = bu).
  { assert (X : get_class s' u = Some bu1).
    { eapply heap_le_get_class; [|exact Gu1].
      eapply heap_le_trans; [apply H12 | exact H2']. }
    rewrite (heap_le_get_class _ _ _ _ Hss' Gu) in X. congruence. }
  subst bu1. destruct (Hn1 Hp) as [u' [Hu ->]]. clear Hn1.
  rewrite (children_dotfree _ n Hdot) in Hu. unfold nested in Hu.
  assert (R1 : reachable s1) by (apply P1; exact R0).
  pose proof Hwu as Hwu'. unfold wf_class in Hwu'.
  apply andb_true_iff in Hwu'. destruct Hwu' as [NDu _].
  destruct (no_selectors_all_optional _ _ _ _ _ _ _ R1 Hu Gu1 NDu)
    as [ou [Gou Hopt]].
  exists c, s', u', ou,
    (with_annotation (copy_model_field_info fi optional_kwargs)
       (Optional_ (TModel u'))).
  split; [exact Hc|].
  split.
  { rewrite (field_of_result _ _ _ _ _ n Gc Hf), Hl, Hg. reflexivity. }
  split; [reflexivity|]. split; [reflexivity|]. split; [reflexivity|].
  split; [reflexivity|].
  split.
  { eapply derived_by_later; [|exact H2'].
    eapply create_partial_model_derived; eassumption. }
  split; [eapply heap_le_get_class; eassumption|].
  split; [exact Hopt|].
  intros Hnone fuel'. destruct (Hmiss Hnone) as [_ Hkeep].
  unfold as_partial. apply create_partial_model_hit.
  apply Hkeep.
  - intro X. inversion X; subst u.
    assert (bt = bu) by (unfold get_class in *; congruence). subst bt.
    eapply (bounded_not_self (heap s) fuel base_cls bu n fi); eauto.
    now apply lookup_field_In.
  - apply P2. eapply create_partial_model_cached; eassumption.
Qed.

Lemma C3_recursive_no_selectors_witness :
  exists c s' u' fi',
    create_partial_model 2 2 [] (Some true) ex_state = Some (c, s') /\
    field_of s' c "child" = Some fi' /\
    fi_annotation fi' = Some (Optional_ (TModel u')) /\
    as_partial 0 1 [] true s' = Some (u', s').
Proof.
  destruct (C3_recursive_no_selectors 2 2 1 ex_state ex_Parent ex_Child "child"
              (required_field (TModel 1)) (reach_init _) eq_refl eq_refl
              eq_refl eq_refl eq_refl eq_refl eq_refl eq_refl eq_refl)
    as [c [s' [u' [ou [fi' [H1 [H2 [_ [H3 [_ [_ [_ [_ [_ H4]]]]]]]]]]]]]].
  exists c, s', u', fi'. split; [exact H1|]. split; [exact H2|].
  split; [exact H3|]. apply H4. reflexivity.
Defined.

(** The claim C3 as it is stated fails on the class [Parent]: its field
    [child] is required, and after the recursive call with no selectors it
    is optional. *)
Lemma C3_counterexample :
  exists c s' f0 f1,
    create_partial_model 2 2 [] (Some true) ex_state = Some (c, s') /\
    field_of ex_state 2 "child" = Some f0 /\
    is_model_field_info_required f0 = true /\
    field_of s' c "child" = Some f1 /\
    is_model_field_info_required f1 = false.
Proof.
  eexists. eexists. eexists. eexists.
  split; [vm_compute; reflexivity|].
  split; [reflexivity|]. split; [reflexivity|].
  split; [vm_compute; reflexivity|]. reflexivity.
Qed.

(** ** C5: a selected field that is optional already *)

(** C5, on the code.  In the recursive call on [Parent] with no selectors
    the field [o], which is optional already, is selected.  The rewriting of
    its annotation gives [Optional[ChildPartial]], and the required field
    [child] beside it does get the rewritten annotation; but no override is
    emitted for [o], and in the class that the call returns [o] has the
    annotation [Optional[Child]] it had. *)
Theorem C5_optional_selected_keeps_annotation :
  exists c s' st fo fc,
    create_partial_model 2 2 [] (Some true) ex_state = Some (c, s') /\
    rewrite_annotation (nested 1) ["child"; "n"; "o"; "s"] true "o"
      (TGeneric OUnion [TModel 1; TNone]) ex_state
      = Some (TGeneric OUnion [TModel 4; TNone], st) /\
    field_of s' c "o" = Some fo /\
    fi_annotation fo = Some (TGeneric OUnion [TModel 1; TNone]) /\
    fo = default_field (TGeneric OUnion [TModel 1; TNone]) PyNone /\
    field_of s' c "child" = Some fc /\
    fi_annotation fc = Some (TGeneric OUnion [TModel 4; TNone]).
Proof.
  eexists. eexists. eexists. eexists. eexists.
  split; [vm_compute; reflexivity|].
  split; [vm_compute; reflexivity|].
  split; [vm_compute; reflexivity|].
  split; [reflexivity|]. split; [reflexivity|].
  split; [vm_compute; reflexivity|]. reflexivity.
Qed.

Lemma C4_selected_required_override_witness :
  exists c s' fi',
    create_partial_model 1 0 ["age"] None ex_state = Some (c, s') /\
    field_of s' c "age" = Some fi' /\
    fi_annotation fi' = Some (Optional_ (TPlain "int")) /\
    fi_default fi' = PyNone /\
    fi_default_factory fi' = PyNone /\
    extra_get "nullable" (fi_extra fi') = Some (PyBool true).
Proof.
  destruct (C4_selected_required_override 1 0 ["age"] None ex_state
              ex_Something "age" (required_field (TPlain "int")) (TPlain "int")
              (reach_init _) eq_refl eq_refl eq_refl eq_refl eq_refl eq_refl
              eq_refl)
    as [c [s' [a' [fi' [H1 [H2 [_ [H3 [H4 [_ [H5 [H6 [H7 _]]]]]]]]]]]]].
  cbn in H3. subst a'.
  exists c, s', fi'. auto 10.
Defined.

(** * Further properties of the derivation *)

(** ** The object that a computed derivation returns *)

(** X1. A call that is not memoised returns either the base class itself
    or a class object that did not exist before the call; it never returns
    another class that was already in the heap. *)
Theorem computed_class_is_base_or_new :
  forall fuel base_cls fields kw s c s',
    cache_get (base_cls, fields, kw) (cache s) = None ->
    create_partial_model fuel base_cls fields kw s = Some (c, s') ->
    c = base_cls \/
    (get_class s c = None /\ exists o, get_class s' c = Some o).
Proof.
  intros fuel base_cls fields kw s c s' Hmiss H.
  rewrite create_partial_model_unfold, Hmiss in H.
  destruct fuel as [|f0]; [discriminate|].
  destruct (create_partial_model_body _ base_cls fields (recursive_of kw) s)
    as [[c1 s1]|] eqn:B; [|discriminate].
  inversion H; subst c1 s'. clear H.
  destruct (body_result _ _ _ _ _ _ _ B)
    as [b [d [sl [o' [G [L [E [Hl [Hc [Gc [Hf [Hp [Hn Hd]]]]]]]]]]]]].
  destruct d as [|x r].
  - left. now apply Hn.
  - right. split.
    + unfold get_class. apply nth_error_None.
      rewrite (Hd ltac:(discriminate)).
      destruct E as [[t Ht] _]. rewrite Ht, length_app. lia.
    + exists o'. exact Gc.
Qed.

Lemma computed_class_is_base_or_new_witness :
  exists c s',
    create_partial_model 1 0 ["age"] None ex_state = Some (c, s') /\
    (c = 0 \/ (get_class ex_state c = None /\ exists o, get_class s' c = Some o)).
Proof.
  eexists. eexists. split; [vm_compute; reflexivity|].
  apply (computed_class_is_base_or_new 1 0 ["age"] None ex_state);
    vm_compute; reflexivity.
Defined.

(** X3. A derived class that is not the base class is the class that
    [create_model] made from it: its name is the name of the base class
    followed by [Partial], its base is the base class, it is derivable
    exactly when the base class is, and it has the fields of the base class
    under the same names in the same order. *)
Theorem derived_class_extends_base :
  forall fuel base_cls fields kw s c s' b,
    reachable s ->
    create_partial_model fuel base_cls fields kw s = Some (c, s') ->
    get_class s base_cls = Some b ->
    c <> base_cls ->
    exists o,
      get_class s' c = Some o /\
      cls_name o = (cls_name b ++ "Partial")%string /\
      cls_base o = Some base_cls /\
      cls_partial o = cls_partial b /\
      map fst (model_fields o) = map fst (model_fields b).
Proof.
  intros fuel base_cls fields kw s c s' b Hr Hc G Hne.
  destruct (create_partial_model_result _ _ _ _ _ _ _ _ Hr Hc G)
    as [f0 [s0 [d [sl [o' [R0 [G0 [L [E [Hle [Gc [Hf [Hp [Hn [Hd Hmiss]]]]]]]]]]]]]]].
  exists o'. split; [exact Gc|].
  assert (Hnb : cls_name o' = (cls_name b ++ "Partial")%string /\
                cls_base o' = Some base_cls).
  { destruct (create_partial_model_derived _ _ _ _ _ _ _ Hr Hc)
      as [f1 [z0 [z1 [Rz [B [Hz01 Hz1]]]]]].
    apply body_inv in B.
    destruct B as [b0 [d0 [zl [Gz [Lz [[_ [X _]]|[_ C]]]]]]]; [contradiction|].
    assert (Ezl : ext z0 zl).
    { eapply (loop_preserved (nested f1) _ _ ext ext_refl ext_trans
                (nested_ext f1)). exact Lz. }
    assert (b0 = b).
    { pose proof (create_partial_model_ext _ _ _ _ _ _ _ Hc) as [Hss' _].
      assert (X : get_class s' base_cls = Some b0).
      { eapply heap_le_get_class; [|exact Gz].
        eapply heap_le_trans; eassumption. }
      rewrite (heap_le_get_class _ _ _ _ Hss' G) in X. congruence. }
    subst b0.
    apply create_model_inv in C. destruct C as [b1 [_ [Hcl [_ Hh]]]].
    assert (Gz1 : get_class z1 c = Some
      (mkClass (cls_name b ++ "Partial") (Some base_cls) (cls_partial b1)
         (map (apply_override d0) (model_fields b1) ++
          map (fun kv => (fst kv, with_annotation (snd (snd kv)) (fst (snd kv))))
              (filter (fun kv => negb (mem (fst kv) (map fst (model_fields b1))))
                      d0)))).
    { unfold get_class. rewrite Hh, Hcl.
      rewrite nth_error_app2 by lia. now rewrite Nat.sub_diag. }
    pose proof (heap_le_get_class _ _ _ _ Hz1 Gz1) as X.
    rewrite Gc in X. inversion X. split; reflexivity. }
  destruct Hnb as [H1 H2].
  split; [exact H1|]. split; [exact H2|]. split; [exact Hp|].
  rewrite Hf. apply names_override.
Qed.

Lemma derived_class_extends_base_witness :
  exists c s' o,
    create_partial_model 1 0 ["age"] None ex_state = Some (c, s') /\
    get_class s' c = Some o /\
    cls_name o = "SomethingPartial" /\ cls_base o = Some 0.
Proof.
  assert (H : create_partial_model 1 0 ["age"] None ex_state
              = Some (4, mkState (heap ex_state ++
                   [mkClass "SomethingPartial" (Some 0) true
                      [("name", required_field (TPlain "str"));
                       ("age", with_annotation
                          (copy_model_field_info (required_field (TPlain "int"))
                             optional_kwargs)
                          (Optional_ (TPlain "int")))]])
                   [((0, ["age"], None), 4)])).
  { vm_compute. reflexivity. }
  destruct (derived_class_extends_base 1 0 ["age"] None ex_state 4 _
              ex_Something (reach_init _) H eq_refl)
    as [o [H1 [H2 [H3 _]]]]; [discriminate|].
  eexists. eexists. exists o. split; [exact H|]. auto.
Defined.

(** ** Fields that a derivation carries over *)

Lemma entry_absent : forall f0 fields_ recursive fs s d s' n fi,
  NoDup (map fst fs) ->
  compute_optional_fields (nested f0) fields_ recursive fs s = Some (d, s') ->
  In (n, fi) fs ->
  fi_annotation fi = None \/
  (mem n fields_ = false /\ sub_fields_requested fields_ n = false) \/
  (mem n fields_ = true /\ is_model_field_info_required fi = false) ->
  dict_get n d = None.
Proof.
  intros f0 fields_ recursive fs s d s' n fi ND L Hin Hcase.
  pose proof (loop_entry_cases (nested f0) fields_ recursive ext ext_refl
                ext_trans (nested_ext f0) _ _ _ _ n fi ND L Hin) as H.
  destruct (fi_annotation fi) as [a|]; [|exact H].
  destruct Hcase as [X|[[X1 X2]|[X1 X2]]]; [discriminate| |].
  - rewrite X1, X2 in H. exact H.
  - rewrite X1, X2 in H. cbn [negb andb] in H.
    destruct H as [a' [_ H]]. exact H.
Qed.

Lemma field_carried : forall fuel base_cls fields kw s c s' b n fi,
  reachable s ->
  create_partial_model fuel base_cls fields kw s = Some (c, s') ->
  get_class s base_cls = Some b ->
  nodupb (map fst (model_fields b)) = true ->
  lookup_field n (model_fields b) = Some fi ->
  fi_annotation fi = None \/
  (mem n (effective_fields fields b) = false /\
   sub_fields_requested (effective_fields fields b) n = false) \/
  (mem n (effective_fields fields b) = true /\
   is_model_field_info_required fi = false) ->
  field_of s' c n = Some fi.
Proof.
  intros fuel base_cls fields kw s c s' b n fi Hr Hc G ND Hl Hcase.
  destruct (create_partial_model_result _ _ _ _ _ _ _ _ Hr Hc G)
    as [f0 [s0 [d [sl [o' [R0 [G0 [L [E [Hle [Gc [Hf _]]]]]]]]]]]].
  rewrite (field_of_result _ _ _ _ _ n Gc Hf), Hl.
  rewrite (entry_absent _ _ _ _ _ _ _ n fi (nodupb_NoDup _ ND) L
             (lookup_field_In _ _ _ Hl) Hcase).
  reflexivity.
Qed.

(** X4. With explicit selectors, a field that is not selected and below
    which no selector goes is carried over as it is, in a recursive call
    too: the recursion flag reaches selected fields and fields with
    requested sub-fields only. *)
Theorem unselected_field_unchanged :
  forall fuel base_cls fields kw s b n fi,
    reachable s ->
    bounded (heap s) fuel base_cls = true ->
    get_class s base_cls = Some b ->
    nodupb (map fst (model_fields b)) = true ->
    lookup_field n (model_fields b) = Some fi ->
    mem n (effective_fields fields b) = false ->
    sub_fields_requested (effective_fields fields b) n = false ->
    exists c s',
      create_partial_model fuel base_cls fields kw s = Some (c, s') /\
      field_of s' c n = Some fi.
Proof.
  intros fuel base_cls fields kw s b n fi Hr Hb G ND Hl Hm Hs.
  destruct (create_partial_model_total fuel base_cls fields kw s Hb)
    as [c [s' Hc]].
  exists c, s'. split; [exact Hc|].
  eapply field_carried; eauto.
Qed.

Lemma unselected_field_unchanged_witness :
  exists c s',
    create_partial_model 2 2 ["n"] (Some true) ex_state = Some (c, s') /\
    field_of s' c "child" = Some (required_field (TModel 1)).
Proof.
  apply (unselected_field_unchanged 2 2 ["n"] (Some true) ex_state ex_Parent
           "child" (required_field (TModel 1)) (reach_init _));
    reflexivity.
Defined.

(** X5. A field whose annotation cannot be resolved is skipped: whatever
    the selectors and the recursion flag are, the derived class has it as
    the base class has it. *)
Theorem unresolved_field_unchanged :
  forall fuel base_cls fields kw s b n fi,
    reachable s ->
    bounded (heap s) fuel base_cls = true ->
    get_class s base_cls = Some b ->
    nodupb (map fst (model_fields b)) = true ->
    lookup_field n (model_fields b) = Some fi ->
    fi_annotation fi = None ->
    exists c s',
      create_partial_model fuel base_cls fields kw s = Some (c, s') /\
      field_of s' c n = Some fi.
Proof.
  intros fuel base_cls fields kw s b n fi Hr Hb G ND Hl Ha.
  destruct (create_partial_model_total fuel base_cls fields kw s Hb)
    as [c [s' Hc]].
  exists c, s'. split; [exact Hc|].
  eapply field_carried; eauto.
Qed.

Lemma unresolved_field_unchanged_witness :
  exists c s',
    create_partial_model 1 3 ["c"] (Some true) ex_state = Some (c, s') /\
    field_of s' c "c" = Some (mkField None Undefined PyNone []).
Proof.
  apply (unresolved_field_unchanged 1 3 ["c"] (Some true) ex_state ex_Mixed
           "c" (mkField None Undefined PyNone []) (reach_init _));
    reflexivity.
Defined.

(** X6. A selected field that is optional already gets no override at
    all: the derived class has its descriptor as it is, with its annotation
    and its default, whatever the recursion flag is and whether or not
    sub-fields of it are requested. *)
Theorem selected_optional_field_unchanged :
  forall fuel base_cls fields kw s b n fi,
    reachable s ->
    bounded (heap s) fuel base_cls = true ->
    get_class s base_cls = Some b ->
    nodupb (map fst (model_fields b)) = true ->
    lookup_field n (model_fields b) = Some fi ->
    mem n (effective_fields fields b) = true ->
    is_model_field_info_required fi = false ->
    exists c s',
      create_partial_model fuel base_cls fields kw s = Some (c, s') /\
      field_of s' c n = Some fi.
Proof.
  intros fuel base_cls fields kw s b n fi Hr Hb G ND Hl Hm Hq.
  destruct (create_partial_model_total fuel base_cls fields kw s Hb)
    as [c [s' Hc]].
  exists c, s'. split; [exact Hc|].
  eapply field_carried; eauto.
Qed.

Lemma selected_optional_field_unchanged_witness :
  exists c s',
    create_partial_model 2 2 ["o"; "o.*"] (Some true) ex_state = Some (c, s') /\
    field_of s' c "o"
      = Some (default_field (TGeneric OUnion [TModel 1; TNone]) PyNone).
Proof.
  apply (selected_optional_field_unchanged 2 2 ["o"; "o.*"] (Some true)
           ex_state ex_Parent "o"
           (default_field (TGeneric OUnion [TModel 1; TNone]) PyNone)
           (reach_init _));
    reflexivity.
Defined.

(** ** What a call leaves alone *)

(** X7. A call never changes what exists: every class object of the heap
    is the same object with the same fields after the call, and every entry
    of the memoisation table still maps its key to the same class. *)
Theorem call_keeps_classes_and_entries :
  forall fuel base_cls fields kw s c s',
    create_partial_model fuel base_cls fields kw s = Some (c, s') ->
    (forall c0 o, get_class s c0 = Some o -> get_class s' c0 = Some o) /\
    (forall k v, cache_get k (cache s) = Some v ->
                 cache_get k (cache s') = Some v) /\
    List.length (heap s) <= List.length (heap s').
Proof.
  intros fuel base_cls fields kw s c s' H.
  destruct (create_partial_model_ext _ _ _ _ _ _ _ H) as [Hh Hc].
  split; [|split].
  - intros c0 o G. eapply heap_le_get_class; eassumption.
  - exact Hc.
  - destruct Hh as [t Ht]. rewrite Ht, length_app. lia.
Qed.

Lemma call_keeps_classes_and_entries_witness :
  exists c s',
    create_partial_model 2 2 [] (Some true) ex_state = Some (c, s') /\
    get_class s' 2 = Some ex_Parent.
Proof.
  destruct (create_partial_model 2 2 [] (Some true) ex_state)
    as [[c s']|] eqn:E.
  - exists c, s'. split; [reflexivity|].
    apply (proj1 (call_keeps_classes_and_entries _ _ _ _ _ _ _ E)).
    reflexivity.
  - vm_compute in E. discriminate.
Defined.

(** ** A model that contains itself *)

Section SelfReference.

Variable s : state.
Variable t : cls.
Variable b : class_obj.
Hypothesis t_class : get_class s t = Some b.
Hypothesis t_partial : cls_partial b = true.
Hypothesis t_names : forallb dotfree (map fst (model_fields b)) = true.

(** The states after [s] in which the recursive derivation of [t] with no
    selectors is not in the table. *)
Let open_at (z : state) : Prop :=
  heap_le s z /\ cache_get (t, [], Some true) (cache z) = None.

Let keeps (a z : state) : Prop := open_at a -> open_at z.

Lemma keeps_refl : forall a, keeps a a.
Proof. intros a H. exact H. Qed.

Lemma keeps_trans : forall a m z, keeps a m -> keeps m z -> keeps a z.
Proof. intros a m z H1 H2 H. apply H2, H1, H. Qed.

Lemma mapM_fails : forall cb fields_ recursive n x args,
  (forall c fs r a c' z, cb c fs r a = Some (c', z) -> keeps a z) ->
  In x args ->
  (forall z, open_at z ->
             _partial_annotation_arg cb fields_ recursive n x z = None) ->
  forall z, open_at z ->
    mapM (_partial_annotation_arg cb fields_ recursive n) args z = None.
Proof.
  intros cb fields_ recursive n x args Hcb. induction args as [|y r IH];
    intros Hin Hx z Hz; [contradiction|].
  cbn [mapM]. unfold bind.
  destruct (_partial_annotation_arg cb fields_ recursive n y z)
    as [[y' z1]|] eqn:E; [|reflexivity].
  destruct Hin as [->|Hin]; [rewrite (Hx z Hz) in E; discriminate|].
  assert (Hz1 : open_at z1).
  { apply (arg_preserved cb fields_ recursive keeps keeps_refl Hcb _ _ _ _ _ E).
    exact Hz. }
  now rewrite (IH Hin Hx z1 Hz1).
Qed.

Lemma loop_fails : forall cb fields_ recursive item fs,
  (forall c fs r a c' z, cb c fs r a = Some (c', z) -> keeps a z) ->
  In item fs ->
  (forall d z, open_at z -> field_step cb fields_ recursive d item z = None) ->
  forall d z, open_at z ->
    foldM (field_step cb fields_ recursive) fs d z = None.
Proof.
  intros cb fields_ recursive item fs Hcb. induction fs as [|y r IH];
    intros Hin Hx d z Hz; [contradiction|].
  cbn [foldM]. unfold bind.
  destruct (field_step cb fields_ recursive d y z) as [[d1 z1]|] eqn:E;
    [|reflexivity].
  destruct Hin as [->|Hin]; [rewrite (Hx d z Hz) in E; discriminate|].
  assert (Hz1 : open_at z1).
  { apply (field_step_preserved cb fields_ recursive keeps keeps_refl
             keeps_trans Hcb _ _ _ _ _ E). exact Hz. }
  now apply IH.
Qed.

Variable n : string.
Variable fi : field_info.
Variable a : ty.
Hypothesis t_field : In (n, fi) (model_fields b).
Hypothesis t_annotation : fi_annotation fi = Some a.
Hypothesis t_target : In t (targets a).

Lemma self_reference_step : forall fuel,
  (forall z, open_at z ->
             create_partial_model fuel t [] (Some true) z = None) /\
  (forall c fs kw z c' z',
     create_partial_model fuel c fs kw z = Some (c', z') -> keeps z z').
Proof.
  induction fuel as [|fuel [IHp IHq]].
  - split.
    + intros z [_ Hz]. rewrite create_partial_model_unfold. now rewrite Hz.
    + intros c fs kw z c' z' H. rewrite create_partial_model_unfold in H.
      destruct (cache_get (c, fs, kw) (cache z)); [|discriminate].
      inversion H; subst. apply keeps_refl.
  - assert (Hcb : forall c fs r x c' z,
              nested fuel c fs r x = Some (c', z) -> keeps x z).
    { intros c fs r x c' z H. eapply IHq. exact H. }
    assert (P : forall z, open_at z ->
              create_partial_model (S fuel) t [] (Some true) z = None).
    { intros z Hz. pose proof Hz as [Hle Hmiss].
      rewrite create_partial_model_unfold, Hmiss.
      unfold create_partial_model_body.
      rewrite (heap_le_get_class _ _ _ _ Hle t_class).
      unfold bind, compute_optional_fields.
      assert (Hloop :
        foldM (field_step (nested fuel) (effective_fields [] b)
                 (recursive_of (Some true))) (model_fields b) [] z = None);
        [|unfold nested in Hloop; now rewrite Hloop].
      apply (loop_fails (nested fuel) _ _ (n, fi) _ Hcb t_field); [|exact Hz].
      intros d z1 Hz1. pose proof Hz1 as [Hle1 _].
      unfold field_step, get_model_field_info_annotation.
      rewrite t_annotation.
      assert (Hm : mem n (effective_fields [] b) = true).
      { cbn [effective_fields]. apply mem_In. apply in_map_iff.
        exists (n, fi). split; [reflexivity | exact t_field]. }
      rewrite Hm. cbn [negb andb recursive_of orb]. unfold bind.
      assert (Harg : forall z2, open_at z2 ->
                _partial_annotation_arg (nested fuel) (effective_fields [] b)
                  true n (TModel t) z2 = None).
      { intros z2 [Hle2 Hz2]. unfold _partial_annotation_arg.
        rewrite (heap_le_get_class _ _ _ _ Hle2 t_class), t_partial.
        unfold bind. cbn [effective_fields].
        rewrite (children_dotfree _ n t_names). unfold nested.
        rewrite (IHp z2 (conj Hle2 Hz2)). reflexivity. }
      assert (Hrw : forall a0, In t (targets a0) ->
                rewrite_annotation (nested fuel) (effective_fields [] b)
                  true n a0 z1 = None).
      { intros a0 Ht. unfold rewrite_annotation.
        destruct a0 as [| |c|o args]; cbn [targets] in Ht; try contradiction.
        - destruct Ht as [->|[]]. cbn [get_origin rebuilt_origin].
          now apply Harg.
        - cbn [get_origin get_args].
          destruct (rebuilt_origin (Some o)); [|contradiction].
          unfold bind.
          rewrite (mapM_fails (nested fuel) _ true n (TModel t) args Hcb);
            [reflexivity| |exact Harg|exact Hz1].
          apply in_flat_map in Ht. destruct Ht as [x [Hx1 Hx2]].
          destruct x; try contradiction. destruct Hx2 as [->|[]]. exact Hx1. }
      now rewrite (Hrw a t_target). }
    split; [exact P|].
    intros c fs kw z c' z' H Hz.
    pose proof H as H0.
    rewrite create_partial_model_unfold in H.
    destruct (cache_get (c, fs, kw) (cache z)) as [c0|] eqn:Hit.
    + inversion H; subst. exact Hz.
    + destruct (create_partial_model_body _ c fs (recursive_of kw) z)
        as [[c1 z1]|] eqn:B; [|discriminate].
      inversion H; subst c1 z'. clear H.
      assert (Hz1 : open_at z1).
      { apply (body_preserved (nested fuel) keeps keeps_refl keeps_trans Hcb)
          with (base_cls := c) (fields := fs) (recursive := recursive_of kw)
               (c := c') (s := z) (s' := z1); [|exact B|exact Hz].
        intros name base d x c2 x' Hm [Hle Hk].
        apply create_model_inv in Hm. destruct Hm as [b1 [_ [_ [Hc Hh]]]].
        split.
        - eapply heap_le_trans; [exact Hle|]. eexists. exact Hh.
        - now rewrite Hc. }
      destruct Hz1 as [Hle1 Hk1]. split; [exact Hle1|].
      cbn [cache]. rewrite cache_get_set_other; [exact Hk1|].
      intro X. inversion X; subst c fs kw.
      rewrite (P z Hz) in H0. discriminate.
Qed.

End SelfReference.

(** X8. A derivable model with a field whose annotation is the model
    itself, bare or as an argument of a union, list, tuple or dict, cannot be
    derived recursively with no selectors: the nested derivation asks for
    the same derivation again, and the call returns with no amount of
    fuel. *)
Theorem self_reference_never_returns :
  forall fuel s t b n fi a,
    get_class s t = Some b ->
    cls_partial b = true ->
    forallb dotfree (map fst (model_fields b)) = true ->
    In (n, fi) (model_fields b) ->
    fi_annotation fi = Some a ->
    In t (targets a) ->
    cache_get (t, [], Some true) (cache s) = None ->
    create_partial_model fuel t [] (Some true) s = None.
Proof.
  intros fuel s t b n fi a G Hp Hd Hin Ha Ht Hmiss.
  destruct (self_reference_step s t b G Hp Hd n fi a Hin Ha Ht fuel) as [P _].
  destruct fuel as [|fuel].
  - rewrite create_partial_model_unfold. now rewrite Hmiss.
  - apply P. split; [apply heap_le_refl | exact Hmiss].
Qed.

Lemma self_reference_never_returns_witness :
  create_partial_model 7 0 [] (Some true) ex_chain = None.
Proof.
  apply (self_reference_never_returns 7 ex_chain 0 ex_Node "next"
           (default_field (TGeneric OUnion [TModel 0; TNone]) PyNone)
           (TGeneric OUnion [TModel 0; TNone])); try reflexivity.
  - right. left. reflexivity.
  - left. reflexivity.
Defined.

(** ** The arguments of a rebuilt container *)

Lemma mapM_rewritten : forall cb fields_ recursive n args s args' s',
  mapM (_partial_annotation_arg cb fields_ recursive n) args s
    = Some (args', s') ->
  Forall2 (arg_rewritten cb fields_ recursive n) args args'.
Proof.
  intros cb fields_ recursive n args.
  induction args as [|x r IH]; intros s args' s' H; cbn [mapM] in H.
  - inversion H; subst. constructor.
  - unfold bind, ret in H.
    destruct (_partial_annotation_arg cb fields_ recursive n x s)
      as [[x' s1]|] eqn:E; [|discriminate].
    destruct (mapM _ r s1) as [[r' s2]|] eqn:E2; [|discriminate].
    inversion H; subst. constructor; [|eapply IH; exact E2].
    unfold _partial_annotation_arg in E. unfold arg_rewritten.
    destruct x as [| |c|o l]; try (inversion E; subst; reflexivity).
    destruct (get_class s c) as [oc|]; [|discriminate].
    destruct (cls_partial oc).
    + unfold bind, ret in E.
      destruct (cb c (children_fields fields_ n) recursive s)
        as [[c' z']|] eqn:Ec; [|discriminate].
      inversion E; subst. right. exists s, c', s1. auto.
    + inversion E; subst. now left.
Qed.

(** X9. When the annotation of a field is a union, list, tuple or dict
    and its rewriting returns, the result is the same container over as many
    arguments in the same order; an argument that is a class is either kept
    or replaced by the class that [as_partial] returned for it with the
    children fields, and an argument that is not a class, a container of
    models for one, is kept as it is. *)
Theorem rebuilt_arguments_positionwise :
  forall cb fields_ recursive n o args s a' s',
    rebuilt_origin (Some o) = true ->
    rewrite_annotation cb fields_ recursive n (TGeneric o args) s
      = Some (a', s') ->
    exists args',
      a' = subscript o args' /\
      List.length args' = List.length args /\
      Forall2 (arg_rewritten cb fields_ recursive n) args args'.
Proof.
  intros cb fields_ recursive n o args s a' s' Ho H.
  unfold rewrite_annotation in H. cbn [get_origin get_args] in H.
  rewrite Ho in H. unfold bind, ret in H.
  destruct (mapM _ args s) as [[args' s1]|] eqn:E; [|discriminate].
  inversion H; subst. exists args'.
  pose proof (mapM_rewritten _ _ _ _ _ _ _ _ E) as F.
  split; [reflexivity|]. split; [|exact F].
  symmetry. eapply Forall2_length. exact F.
Qed.

Lemma rebuilt_arguments_positionwise_witness :
  exists a' s' args',
    rewrite_annotation (nested 1) ["o"] true "o"
      (TGeneric OUnion [TModel 1; TNone]) ex_state = Some (a', s') /\
    a' = subscript OUnion args' /\
    List.length args' = 2.
Proof.
  destruct (rewrite_annotation (nested 1) ["o"] true "o"
              (TGeneric OUnion [TModel 1; TNone]) ex_state)
    as [[a' s']|] eqn:E.
  - destruct (rebuilt_arguments_positionwise (nested 1) ["o"] true "o" OUnion
                [TModel 1; TNone] ex_state a' s' eq_refl E)
      as [args' [H1 [H2 _]]].
    exists a', s', args'. auto.
  - vm_compute in E. discriminate.
Defined.

Lemma mapM_not_classes : forall cb fields_ recursive n args s,
  forallb not_a_class args = true ->
  mapM (_partial_annotation_arg cb fields_ recursive n) args s
    = Some (args, s).
Proof.
  intros cb fields_ recursive n args s.
  induction args as [|x r IH]; intro H; [reflexivity|].
  cbn [forallb] in H. apply andb_true_iff in H. destruct H as [H1 H2].
  cbn [mapM]. unfold bind, ret.
  assert (E : _partial_annotation_arg cb fields_ recursive n x s = Some (x, s)).
  { destruct x; try reflexivity. discriminate. }
  rewrite E, (IH H2). reflexivity.
Qed.

(** X10. The rewriting goes one level deep.  When no argument of a list,
    tuple or dict annotation is itself a class, as in a list of lists of a
    derivable model, the annotation is returned as it is and nothing is
    derived, in a recursive call too. *)
Theorem nested_containers_not_rewritten :
  forall cb fields_ recursive n o args s,
    rebuilt_origin (Some o) = true ->
    o <> OUnion ->
    forallb not_a_class args = true ->
    rewrite_annotation cb fields_ recursive n (TGeneric o args) s
      = Some (TGeneric o args, s).
Proof.
  intros cb fields_ recursive n o args s Ho Hu Ha.
  unfold rewrite_annotation. cbn [get_origin get_args]. rewrite Ho.
  unfold bind, ret. rewrite (mapM_not_classes _ _ _ _ _ _ Ha).
  destruct o; try reflexivity. contradiction.
Qed.

Lemma nested_containers_not_rewritten_witness :
  rewrite_annotation (nested 3) [] true "s"
    (TGeneric OList [TGeneric OList [TModel 1]]) ex_state
  = Some (TGeneric OList [TGeneric OList [TModel 1]], ex_state).
Proof.
  apply (nested_containers_not_rewritten (nested 3) [] true "s" OList
           [TGeneric OList [TModel 1]] ex_state);
    [reflexivity | discriminate | reflexivity].
Defined.

(** ** Requests that differ in their key only *)

(** A call that is not memoised and needs no nested derivation adds its own
    entry to the table and nothing else. *)
Lemma quiet_miss : forall fuel base_cls fields kw s b c s',
  get_class s base_cls = Some b ->
  forallb (quiet (effective_fields fields b) (recursive_of kw)) (model_fields b)
    = true ->
  cache_get (base_cls, fields, kw) (cache s) = None ->
  create_partial_model (S fuel) base_cls fields kw s = Some (c, s') ->
  cache s' = cache_set (base_cls, fields, kw) c (cache s) /\
  (c = base_cls \/ c = List.length (heap s)).
Proof.
  intros fuel base_cls fields kw s b c s' G Hq Hmiss H.
  rewrite create_partial_model_unfold, Hmiss in H.
  destruct (create_partial_model_body _ base_cls fields (recursive_of kw) s)
    as [[c1 s1]|] eqn:B; [|discriminate].
  inversion H; subst c1 s'. clear H. cbn [cache].
  apply body_inv in B. destruct B as [b0 [d [sl [G0 [L Fin]]]]].
  rewrite G in G0. inversion G0; subst b0. clear G0.
  destruct (loop_quiet (fun c fs r => create_partial_model fuel c fs (Some r))
              _ _ _ [] s Hq) as [d' L'].
  unfold compute_optional_fields in L. rewrite L' in L.
  inversion L; subst d' sl. clear L.
  destruct Fin as [[_ [-> ->]]|[_ C]].
  - split; [reflexivity | now left].
  - apply create_model_inv in C. destruct C as [b1 [_ [-> [Hc _]]]].
    rewrite Hc. split; [reflexivity | now right].
Qed.

(** X2. The memoisation goes by the arguments as they are written.  Two
    requests on the same class that select the same fields but differ in
    their key, by the order of the selectors or by the keyword [recursive]
    being left out in one and passed as [False] in the other, return two
    different class objects, each of them new, whose fields are the same. *)
Theorem equivalent_requests_distinct_classes :
  forall fuel base_cls f1 kw1 f2 kw2 s b n fi a,
    reachable s ->
    get_class s base_cls = Some b ->
    wf_class b = true ->
    recursive_of kw1 = false -> recursive_of kw2 = false ->
    forallb dotfree (effective_fields f1 b) = true ->
    forallb dotfree (effective_fields f2 b) = true ->
    (forall m, mem m (effective_fields f1 b) = mem m (effective_fields f2 b)) ->
    (f1, kw1) <> (f2, kw2) ->
    cache_get (base_cls, f1, kw1) (cache s) = None ->
    cache_get (base_cls, f2, kw2) (cache s) = None ->
    lookup_field n (model_fields b) = Some fi ->
    fi_annotation fi = Some a ->
    is_model_field_info_required fi = true ->
    mem n (effective_fields f1 b) = true ->
    exists c1 s1 c2 s2,
      create_partial_model (S fuel) base_cls f1 kw1 s = Some (c1, s1) /\
      create_partial_model (S fuel) base_cls f2 kw2 s1 = Some (c2, s2) /\
      c1 <> base_cls /\ c2 <> base_cls /\ c1 <> c2 /\
      forall m, field_of s2 c1 m = field_of s2 c2 m.
Proof.
  intros fuel base_cls f1 kw1 f2 kw2 s b n fi a Hr G Hw Hr1 Hr2 Hd1 Hd2 Hsame
         Hne Hm1 Hm2 Hl Ha Hq Hsel.
  pose proof Hw as Hw'. unfold wf_class in Hw'.
  apply andb_true_iff in Hw'. destruct Hw' as [ND _].
  assert (Q : forall fs kw,
    recursive_of kw = false -> forallb dotfree (effective_fields fs b) = true ->
    forallb (quiet (effective_fields fs b) (recursive_of kw)) (model_fields b)
      = true).
  { intros fs kw Hrk Hdk. apply forallb_forall. intros [m f] _.
    unfold quiet. cbn [fst snd]. destruct (fi_annotation f); [|reflexivity].
    rewrite (sub_fields_dotfree _ m Hdk), Hrk. reflexivity. }
  (* a call with the field [n] selected returns a class other than the base *)
  assert (New : forall fs kw z c z',
    reachable z -> get_class z base_cls = Some b ->
    recursive_of kw = false -> forallb dotfree (effective_fields fs b) = true ->
    mem n (effective_fields fs b) = true ->
    create_partial_model (S fuel) base_cls fs kw z = Some (c, z') ->
    c <> base_cls).
  { intros fs kw z c z' Rz Gz Hrk Hdk Hmk Hc Heq. subst c.
    destruct (quiet_result _ _ _ _ _ _ _ _ Rz Hc Gz ND (Q fs kw Hrk Hdk))
      as [Hfield _].
    pose proof (Hfield n fi Hl) as X. unfold quiet_override in X.
    rewrite Ha, Hmk, Hq in X. cbn [andb] in X.
    pose proof (create_partial_model_ext _ _ _ _ _ _ _ Hc) as [Hle _].
    unfold field_of in X. rewrite (heap_le_get_class _ _ _ _ Hle Gz), Hl in X.
    inversion X as [Y]. rewrite Y in Hq. discriminate. }
  destruct (create_partial_model_quiet fuel base_cls f1 kw1 s b G (Q _ _ Hr1 Hd1))
    as [c1 [s1 Hc1]].
  pose proof (create_partial_model_ext _ _ _ _ _ _ _ Hc1) as [Hle1 _].
  pose proof (heap_le_get_class _ _ _ _ Hle1 G) as G1.
  assert (R1 : reachable s1) by (eapply reach_call; eassumption).
  destruct (quiet_miss _ _ _ _ _ _ _ _ G (Q _ _ Hr1 Hd1) Hm1 Hc1) as [Hca1 Hn1].
  assert (Hm2' : cache_get (base_cls, f2, kw2) (cache s1) = None).
  { rewrite Hca1, cache_get_set_other; [exact Hm2|].
    intro X. inversion X. apply Hne. congruence. }
  destruct (create_partial_model_quiet fuel base_cls f2 kw2 s1 b G1
              (Q _ _ Hr2 Hd2)) as [c2 [s2 Hc2]].
  pose proof (create_partial_model_ext _ _ _ _ _ _ _ Hc2) as [Hle2 _].
  destruct (quiet_miss _ _ _ _ _ _ _ _ G1 (Q _ _ Hr2 Hd2) Hm2' Hc2) as [_ Hn2].
  assert (N1 : c1 <> base_cls)
    by exact (New f1 kw1 s c1 s1 Hr G Hr1 Hd1 Hsel Hc1).
  assert (N2 : c2 <> base_cls).
  { apply (New f2 kw2 s1 c2 s2 R1 G1 Hr2 Hd2); [|exact Hc2].
    now rewrite <- Hsame. }
  destruct (quiet_result _ _ _ _ _ _ _ _ Hr Hc1 G ND (Q _ _ Hr1 Hd1))
    as [F1 [_ [o1 [Go1 Hnames1]]]].
  destruct (quiet_result _ _ _ _ _ _ _ _ R1 Hc2 G1 ND (Q _ _ Hr2 Hd2))
    as [F2 [_ [o2 [Go2 Hnames2]]]].
  exists c1, s1, c2, s2.
  split; [exact Hc1|]. split; [exact Hc2|]. split; [exact N1|].
  split; [exact N2|]. split.
  - destruct Hn2 as [X|X]; [contradiction|].
    apply get_class_lt in Go1. lia.
  - intro m.
    pose proof (heap_le_get_class _ _ _ _ Hle2 Go1) as Go1'.
    destruct (lookup_field m (model_fields b)) as [f|] eqn:Hlm.
    + rewrite (F2 m f Hlm).
      pose proof (F1 m f Hlm) as X. unfold field_of in X |- *.
      rewrite Go1 in X. rewrite Go1', X.
      unfold quiet_override. now rewrite Hsame.
    + unfold field_of. rewrite Go1', Go2.
      assert (Z : forall o, map fst (model_fields o) = map fst (model_fields b) ->
                            lookup_field m (model_fields o) = None).
      { intros o Ho. destruct (lookup_field m (model_fields o)) eqn:E;
          [|reflexivity].
        exfalso. assert (In m (map fst (model_fields b))).
        { rewrite <- Ho. apply lookup_field_names. congruence. }
        apply lookup_field_names in H. congruence. }
      now rewrite (Z o1 Hnames1), (Z o2 Hnames2).
Qed.

Lemma equivalent_requests_distinct_classes_witness :
  exists c1 s1 c2 s2,
    create_partial_model 1 0 ["name"; "age"] None ex_state = Some (c1, s1) /\
    create_partial_model 1 0 ["age"; "name"] None s1 = Some (c2, s2) /\
    c1 <> c2 /\
    field_of s2 c1 "age" = field_of s2 c2 "age".
Proof.
  destruct (equivalent_requests_distinct_classes 0 0 ["name"; "age"] None
              ["age"; "name"] None ex_state ex_Something "age"
              (required_field (TPlain "int")) (TPlain "int") (reach_init _)
              eq_refl eq_refl eq_refl eq_refl eq_refl eq_refl)
    as [c1 [s1 [c2 [s2 [H1 [H2 [_ [_ [H3 H4]]]]]]]]];
    try reflexivity; try discriminate.
  - intro m. unfold mem. cbn [effective_fields existsb].
    destruct (String.eqb m "name"), (String.eqb m "age"); reflexivity.
  - exists c1, s1, c2, s2. auto.
Defined.

(** ** A path below a field *)

Lemma path_selector : forall n p,
  dotfree n = true -> p <> "*" ->
  mem n [(n ++ "." ++ p)%string] = false /\
  sub_fields_requested [(n ++ "." ++ p)%string] n = true /\
  children_fields [(n ++ "." ++ p)%string] n = [p].
Proof.
  intros n p Hn Hp.
  assert (E : (n ++ "." ++ p = (n ++ ".") ++ p)%string).
  { now rewrite append_assoc. }
  split; [|split].
  - unfold mem. cbn [existsb]. rewrite orb_false_r.
    apply String.eqb_neq. intro X.
    pose proof (dotfree_append_dot n p) as Y.
    change (n ++ String "." p)%string with (n ++ "." ++ p)%string in Y.
    rewrite <- X in Y. congruence.
  - unfold sub_fields_requested, startswith. cbn [existsb].
    rewrite E, prefix_append. reflexivity.
  - unfold children_fields, startswith. cbn [filter].
    rewrite E, prefix_append. cbn [map]. rewrite removeprefix_append.
    cbn [list_eqb]. apply String.eqb_neq in Hp. now rewrite Hp.
Qed.

Lemma path_other : forall n p m,
  dotfree n = true -> dotfree m = true -> m <> n ->
  mem m [(n ++ "." ++ p)%string] = false /\
  sub_fields_requested [(n ++ "." ++ p)%string] m = false.
Proof.
  intros n p m Hn Hm Hne. split.
  - unfold mem. cbn [existsb]. rewrite orb_false_r.
    apply String.eqb_neq. intro X.
    pose proof (dotfree_append_dot n p) as Y.
    change (n ++ String "." p)%string with (n ++ "." ++ p)%string in Y.
    rewrite <- X in Y. congruence.
  - unfold sub_fields_requested, startswith. cbn [existsb].
    rewrite orb_false_r.
    destruct (String.prefix (m ++ ".") (n ++ "." ++ p)) eqn:E; [|reflexivity].
    exfalso. apply Hne. apply (prefix_dot_same m n p Hm Hn). exact E.
Qed.

(** X11. A selector [n.p] below a field [n] whose annotation is a
    derivable model [u] is handed down without its prefix: the annotation of
    [n] becomes the class that deriving [u] with the one selector [p] gives.
    In that class the field [p], when it is required, is optional with the
    default [None], and every other field is the field of [u].  The field
    [n] keeps its own descriptor and the other fields of the base class are
    carried over. *)
Theorem nested_path_derives_child :
  forall fuel base_cls u kw s bt bu n fi p,
    reachable s ->
    get_class s base_cls = Some bt ->
    wf_class bt = true ->
    lookup_field n (model_fields bt) = Some fi ->
    fi_annotation fi = Some (TModel u) ->
    get_class s u = Some bu ->
    cls_partial bu = true ->
    wf_class bu = true ->
    recursive_of kw = false ->
    dotfree p = true ->
    p <> "*" ->
    exists c s' u',
      create_partial_model (S (S fuel)) base_cls [(n ++ "." ++ p)%string] kw s
        = Some (c, s') /\
      field_of s' c n = Some (with_annotation fi (TModel u')) /\
      derived_by u [p] (Some false) u' s' /\
      (forall f a,
         lookup_field p (model_fields bu) = Some f ->
         fi_annotation f = Some a ->
         is_model_field_info_required f = true ->
         field_of s' u' p
           = Some (with_annotation (copy_model_field_info f optional_kwargs)
                                   (Optional_ a))) /\
      (forall m f, m <> p -> lookup_field m (model_fields bu) = Some f ->
                   field_of s' u' m = Some f) /\
      (cache_get (base_cls, [(n ++ "." ++ p)%string], kw) (cache s) = None ->
       forall fuel', as_partial fuel' u [p] false s' = Some (u', s')) /\
      (forall m f, m <> n -> lookup_field m (model_fields bt) = Some f ->
                   field_of s' c m = Some f).
Proof.
  intros fuel base_cls u kw s bt bu n fi p Hr G Hw Hl Ha Gu Hp Hwu Hrec Hdp Hps.
  pose proof Hw as Hw'. unfold wf_class in Hw'.
  apply andb_true_iff in Hw'. destruct Hw' as [ND Hdot].
  rewrite forallb_forall in Hdot.
  assert (Hn : dotfree n = true).
  { apply Hdot. apply lookup_field_names. congruence. }
  destruct (path_selector n p Hn Hps) as [Wm [Ws Wc]].
  set (sel := [(n ++ "." ++ p)%string]) in *.
  pose proof Hwu as Hwu'. unfold wf_class in Hwu'.
  apply andb_true_iff in Hwu'. destruct Hwu' as [NDu _].
  assert (Qu : forallb (quiet (effective_fields [p] bu)
                          (recursive_of (Some false))) (model_fields bu) = true).
  { apply forallb_forall. intros [m f] _. unfold quiet. cbn [fst snd].
    destruct (fi_annotation f); [|reflexivity].
    cbn [effective_fields recursive_of].
    rewrite (sub_fields_dotfree [p] m); [reflexivity|].
    cbn [forallb]. now rewrite Hdp. }
  (* the call returns *)
  assert (Htot : exists c s',
    create_partial_model (S (S fuel)) base_cls sel kw s = Some (c, s')).
  { rewrite create_partial_model_unfold.
    destruct (cache_get (base_cls, sel, kw) (cache s));
      [eexists; eexists; reflexivity|].
    unfold create_partial_model_body. rewrite G.
    unfold bind, compute_optional_fields.
    destruct (loop_total_inv
                (fun c fs r => create_partial_model (S fuel) c fs (Some r))
                (effective_fields sel bt) (recursive_of kw)
                (fun z => heap_le s z) (model_fields bt))
      with (d := @nil (string * override)) (s := s) as [d [sl [L Il]]].
    - intros [m f] Hin d z Iz.
      destruct (String.eqb m n) eqn:Emn.
      + apply String.eqb_eq in Emn. subst m.
        assert (f = fi).
        { pose proof (In_lookup_field _ _ _ (nodupb_NoDup _ ND) Hin) as X.
          congruence. }
        subst f.
        destruct (create_partial_model_quiet fuel u [p] (Some false) z bu)
          as [u' [z' Hu]].
        * eapply heap_le_get_class; eassumption.
        * exact Qu.
        * exists (dict_set n (TModel u', copy_model_field_info fi []) d), z'.
          split.
          -- rewrite Hrec.
             apply (field_step_model _ _ _ _ _ _ u bu); auto.
             ++ eapply heap_le_get_class; eassumption.
             ++ cbn [effective_fields sel]. fold sel. rewrite Wc. exact Hu.
          -- eapply heap_le_trans; [exact Iz|].
             apply (create_partial_model_ext _ _ _ _ _ _ _ Hu).
      + apply String.eqb_neq in Emn.
        destruct (field_step_quiet
                    (fun c fs r => create_partial_model (S fuel) c fs (Some r))
                    (effective_fields sel bt) (recursive_of kw) d (m, f) z)
          as [d' E].
        * unfold quiet. cbn [fst snd]. destruct (fi_annotation f); [|reflexivity].
          rewrite Hrec.
          destruct (path_other n p m Hn) as [_ X]; [|exact Emn|].
          { apply Hdot. apply in_map_iff. exists (m, f). auto. }
          fold sel in X. cbn [effective_fields sel]. fold sel. now rewrite X.
        * exists d', z. auto.
    - apply heap_le_refl.
    - rewrite L. destruct d as [|x r].
      + eexists; eexists; reflexivity.
      + unfold create_model.
        rewrite (heap_le_get_class _ _ _ _ Il G). eexists; eexists; reflexivity. }
  destruct Htot as [c [s' Hc]].
  (* the class it returns *)
  destruct (create_partial_model_result _ _ _ _ _ _ _ _ Hr Hc G)
    as [f0 [s0 [d [sl [o' [R0 [G0 [L [E [Hle [Gc [Hf [_ [_ [_ Hmiss]]]]]]]]]]]]]]].
  pose proof (nodupb_NoDup _ ND) as ND'.
  pose proof (loop_entry_cases (nested f0) (effective_fields sel bt)
                (recursive_of kw) proceeds proceeds_refl proceeds_trans
                (nested_proceeds f0) _ _ _ _ n fi ND' L
                (lookup_field_In _ _ _ Hl)) as Hcase.
  rewrite Ha in Hcase. cbn [effective_fields sel] in Hcase. fold sel in Hcase.
  rewrite Wm, Ws in Hcase. cbn [negb andb] in Hcase.
  rewrite orb_true_r in Hcase.
  destruct Hcase as [a' [[s1 [s2 [P1 [Hrw P2]]]] Hg]].
  destruct (rewrite_model_inv _ _ _ _ _ _ _ _ Hrw) as [bu1 [Gu1 Hn1]].
  pose proof (create_partial_model_ext _ _ _ _ _ _ _ Hc) as [Hss' _].
  assert (H12 : ext s1 s2).
  { eapply (rewrite_preserved (nested f0) _ _ ext ext_refl ext_trans
              (nested_ext f0)). exact Hrw. }
  assert (H2' : heap_le s2 s').
  { eapply heap_le_trans; [apply P2 | exact Hle]. }
  assert (bu1 = bu).
  { assert (X : get_class s' u = Some bu1).
    { eapply heap_le_get_class; [|exact Gu1].
      eapply heap_le_trans; [apply H12 | exact H2']. }
    rewrite (heap_le_get_class _ _ _ _ Hss' Gu) in X. congruence. }
  subst bu1. destruct (Hn1 Hp) as [u' [Hu ->]]. clear Hn1.
  rewrite Wc, Hrec in Hu. unfold nested in Hu.
  assert (R1 : reachable s1) by (apply P1; exact R0).
  destruct (quiet_result _ _ _ _ _ _ _ _ R1 Hu Gu1 NDu Qu) as [Hfu _].
  exists c, s', u'.
  split; [exact Hc|].
  split.
  { rewrite (field_of_result _ _ _ _ _ n Gc Hf), Hl, Hg. reflexivity. }
  split.
  { eapply derived_by_later; [|exact H2'].
    eapply create_partial_model_derived; eassumption. }
  split.
  { intros f a Hlf Haf Hqf. apply (heap_le_field_of _ _ _ _ _ H2').
    rewrite (Hfu p f Hlf). unfold quiet_override.
    cbn [effective_fields mem existsb]. rewrite String.eqb_refl, Haf, Hqf.
    reflexivity. }
  split.
  { intros m f Hmp Hlf. apply (heap_le_field_of _ _ _ _ _ H2').
    rewrite (Hfu m f Hlf). unfold quiet_override.
    cbn [effective_fields mem existsb].
    apply String.eqb_neq in Hmp. rewrite Hmp. cbn [orb andb].
    now destruct (fi_annotation f). }
  split.
  { intros Hnone fuel'. destruct (Hmiss Hnone) as [_ Hkeep].
    unfold as_partial. apply create_partial_model_hit.
    apply Hkeep.
    - intro X. unfold sel in X. inversion X as [[X1 X2 X3]].
      pose proof (dotfree_append_dot n p) as Y.
      change (n ++ "." ++ p)%string with (n ++ String "." p)%string in X2.
      rewrite <- X2 in Y. congruence.
    - apply P2. eapply create_partial_model_cached; eassumption. }
  intros m f Hmn Hlm.
  pose proof (loop_entry_cases (nested f0) (effective_fields sel bt)
                (recursive_of kw) proceeds proceeds_refl proceeds_trans
                (nested_proceeds f0) _ _ _ _ m f ND' L
                (lookup_field_In _ _ _ Hlm)) as Hcm.
  assert (Hdm : dict_get m d = None).
  { destruct (fi_annotation f); [|exact Hcm].
    destruct (path_other n p m Hn) as [X1 X2]; [|exact Hmn|].
    { apply Hdot. apply lookup_field_names. congruence. }
    fold sel in X1, X2.
    cbn [effective_fields sel] in Hcm. fold sel in Hcm.
    rewrite X1, X2 in Hcm. exact Hcm. }
  rewrite (field_of_result _ _ _ _ _ m Gc Hf), Hlm, Hdm. reflexivity.
Qed.

Lemma nested_path_derives_child_witness :
  exists c s' u',
    create_partial_model 2 2 ["child.x"] None ex_state = Some (c, s') /\
    field_of s' c "child"
      = Some (with_annotation (required_field (TModel 1)) (TModel u')) /\
    field_of s' u' "y" = Some (default_field (TPlain "str") (PyStr "d")) /\
    as_partial 0 1 ["x"] false s' = Some (u', s').
Proof.
  destruct (nested_path_derives_child 0 2 1 None ex_state ex_Parent ex_Child
              "child" (required_field (TModel 1)) "x" (reach_init _)
              eq_refl eq_refl eq_refl eq_refl eq_refl eq_refl eq_refl eq_refl
              eq_refl)
    as [c [s' [u' [H1 [H2 [_ [_ [H3 [H4 _]]]]]]]]]; [discriminate|].
  exists c, s', u'. split; [exact H1|]. split; [exact H2|]. split.
  - apply (H3 "y"); [discriminate | reflexivity].
  - apply H4. reflexivity.
Defined.

(** ** Derivations that return *)

(** X12. When the nesting of derivable models below the base class is no
    deeper than the fuel, the call returns, whatever the selectors and the
    recursion flag are, and what it returns is a class of the heap with the
    fields of the base class under the same names in the same order, which
    is derivable exactly when the base class is: a derivation adds no field,
    drops none and reorders none. *)
Theorem bounded_derivation_returns :
  forall fuel base_cls fields kw s b,
    reachable s ->
    bounded (heap s) fuel base_cls = true ->
    get_class s base_cls = Some b ->
    exists c s' o,
      create_partial_model fuel base_cls fields kw s = Some (c, s') /\
      get_class s' c = Some o /\
      map fst (model_fields o) = map fst (model_fields b) /\
      cls_partial o = cls_partial b.
Proof.
  intros fuel base_cls fields kw s b Hr Hb G.
  destruct (create_partial_model_total fuel base_cls fields kw s Hb)
    as [c [s' Hc]].
  destruct (create_partial_model_result _ _ _ _ _ _ _ _ Hr Hc G)
    as [f0 [s0 [d [sl [o' [_ [_ [_ [_ [_ [Gc [Hf [Hp _]]]]]]]]]]]]].
  exists c, s', o'. split; [exact Hc|]. split; [exact Gc|].
  split; [rewrite Hf; apply names_override | exact Hp].
Qed.

Lemma bounded_derivation_returns_witness :
  exists c s' o,
    create_partial_model 2 2 ["child.*"; "n"] (Some true) ex_state
      = Some (c, s') /\
    get_class s' c = Some o /\
    map fst (model_fields o) = ["child"; "n"; "o"; "s"].
Proof.
  destruct (bounded_derivation_returns 2 2 ["child.*"; "n"] (Some true)
              ex_state ex_Parent (reach_init _) eq_refl eq_refl)
    as [c [s' [o [H1 [H2 [H3 _]]]]]].
  exists c, s', o. auto.
Defined.
